(** * commit_render: GeometryPlacer.ts

    A shallow embedding of [src/GeometryPlacer.ts]: the voxel grid
    [UnpackedSchematic] (cell writes, occurrence counts, atlas metadata)
    and the [GeometryPlacer] (UV unwrapping with its per-type cache, batch
    emission and the grid scan that positions the instances).

    Modelling conventions.
    - Block types, coordinates and grid dimensions are JavaScript numbers
      used as integers: they are [Z].
    - Occurrence counts are JavaScript numbers obtained by repeated [+ 1]
      from [0] or from [undefined]; they are [count]s: an integer or [NaN]
      (exact for doubles below 2^53).
    - Tile indices, the tile count and UV coordinates take part in
      floating-point arithmetic: they are binary64 [float]s, and a store
      into a [Float32Array] rounds to binary32 ([fround]).
    - A JavaScript array is a [list (option Z)]: [None] is a hole, which
      reads as [undefined].
    - A [Map] iterates in insertion order: it is an association list
      ([JsMap]); a plain object indexed by a block type is a [gmap Z].
    - A method that can throw returns the state it leaves behind together
      with a [Completion]. *)

From Stdlib Require Import ZArith List String Floats Lia Bool.
From stdpp Require Import base option list gmap.
Import ListNotations.

#[local] Set Warnings "-inexact-float".
#[local] Open Scope Z_scope.

(* ===================================================================== *)
(** ** JavaScript values and control *)

(** The errors a call can end with.  [TypeError] is the runtime's own
    (property access on, or [Object.keys] of, [undefined]); the other three
    are the [throw new Error(...)] statements of the file. *)
Inductive JsError : Type :=
  | OutOfBounds      (* "Block is out of bounds!" *)
  | SchematicFull    (* "Schematic is full!" *)
  | TextureNotSet    (* "Texture data is not set!" *)
  | TypeError.

Inductive Completion (A : Type) : Type :=
  | Return (a : A)
  | Throw (e : JsError).
Arguments Return {A} a.
Arguments Throw {A} e.

(** A count held in [blockCounts]. *)
Inductive count : Type :=
  | Num (n : Z)
  | NaN.

(** [v + 1] where [v] is the result of [Map.prototype.get]:
    [undefined + 1] is [NaN]. *)
Definition plus_one (v : option count) : count :=
  match v with
  | Some (Num n) => Num (n + 1)
  | Some NaN => NaN
  | None => NaN
  end.

(** [i < n] on numbers where [n] may be [NaN] (every comparison with [NaN]
    is false). *)
Definition lt_count (i : Z) (c : count) : bool :=
  match c with
  | Num n => i <? n
  | NaN => false
  end.

(** An insertion-ordered [Map<number, V>]. *)
Module JsMap.
Definition t (V : Type) : Type := list (Z * V).

Definition empty {V} : t V := [].

Fixpoint get {V} (k : Z) (m : t V) : option V :=
  match m with
  | [] => None
  | (k', v) :: m' => if k' =? k then Some v else get k m'
  end.

Definition has {V} (k : Z) (m : t V) : bool :=
  match get k m with Some _ => true | None => false end.

(** [set] keeps the position of a key that is already present and
    appends a new key at the end. *)
Fixpoint set {V} (k : Z) (v : V) (m : t V) : t V :=
  match m with
  | [] => [(k, v)]
  | (k', v') :: m' => if k' =? k then (k', v) :: m' else (k', v') :: set k v m'
  end.

Definition keys {V} (m : t V) : list Z := map fst m.
End JsMap.

(** Array element read [a[i]]: a hole or an index past the end is
    [undefined]. *)
Definition array_get (a : list (option Z)) (i : Z) : option Z :=
  if i <? 0 then None else mjoin (a !! Z.to_nat i).

(** Array element write [a[i] = v]: inside the array it replaces the
    element; at or past the end the array grows, the skipped indices
    becoming holes.  (A negative [i] would name a property, not an
    element: the elements are unchanged.) *)
Definition array_assign (a : list (option Z)) (i : Z) (v : Z) : list (option Z) :=
  if i <? 0 then a
  else
    let n := Z.to_nat i in
    if (n <? length a)%nat then <[n := Some v]> a
    else a ++ replicate (n - length a)%nat None ++ [Some v].

(** [a.push(v)]. *)
Definition array_push (a : list (option Z)) (v : Z) : list (option Z) :=
  a ++ [Some v].

(** A face-mapping entry [{ key: tileIndex, ... }] in [for ... in] order. *)
Abbreviation FaceMapping := (list (string * float)).

(* ===================================================================== *)
(** ** class UnpackedSchematic *)

Record UnpackedSchematic : Type := mkSchematic {
  sizeX : Z;
  sizeY : Z;
  sizeZ : Z;
  textureCount : option float;                       (* number | undefined *)
  textureData : option string;                       (* string | undefined *)
  textureDictionary : option (gmap Z FaceMapping);   (* object | undefined *)
  schematic : list (option Z);
  blockCounts : JsMap.t count
}.

(** [new UnpackedSchematic(sizeX, sizeY, sizeZ)] *)
Definition newSchematic (sx sy sz : Z) : UnpackedSchematic :=
  mkSchematic sx sy sz None None None [] JsMap.empty.

Definition with_blockCounts (g : UnpackedSchematic) (bc : JsMap.t count) : UnpackedSchematic :=
  mkSchematic (sizeX g) (sizeY g) (sizeZ g) (textureCount g) (textureData g)
    (textureDictionary g) (schematic g) bc.

Definition with_schematic (g : UnpackedSchematic) (a : list (option Z)) : UnpackedSchematic :=
  mkSchematic (sizeX g) (sizeY g) (sizeZ g) (textureCount g) (textureData g)
    (textureDictionary g) a (blockCounts g).

Definition getSchematicLocation (g : UnpackedSchematic) (x y z : Z) : Z :=
  x + y * sizeX g + z * sizeX g * sizeY g.

Definition setBlock (type x y z : Z) (g : UnpackedSchematic)
  : UnpackedSchematic * Completion unit :=
  let bc := blockCounts g in
  let bc := if negb (JsMap.has type bc) && negb (type =? 0)
            then JsMap.set type (Num 0) bc else bc in
  let bc := JsMap.set type (plus_one (JsMap.get type bc)) bc in
  let g := with_blockCounts g bc in
  if (x <? 0) || (x >=? sizeX g) || (y <? 0) || (y >=? sizeY g)
     || (z <? 0) || (z >=? sizeZ g)
  then (g, Throw OutOfBounds)
  else (with_schematic g (array_assign (schematic g) (getSchematicLocation g x y z) type),
        Return tt).

Definition pushBlock (type : Z) (g : UnpackedSchematic)
  : UnpackedSchematic * Completion unit :=
  let bc := blockCounts g in
  let bc := if negb (JsMap.has type bc) && negb (type =? 0)
            then JsMap.set type (Num 0) bc else bc in
  let bc := JsMap.set type (plus_one (JsMap.get type bc)) bc in
  let g := with_blockCounts g bc in
  if Z.of_nat (length (schematic g)) >? sizeX g * sizeY g * sizeZ g
  then (g, Throw SchematicFull)
  else (with_schematic g (array_push (schematic g) type), Return tt).

Definition setTextureData (texture : string) (textureCount : float)
    (textureMapping : gmap Z FaceMapping) (g : UnpackedSchematic) : UnpackedSchematic :=
  mkSchematic (sizeX g) (sizeY g) (sizeZ g) (Some textureCount) (Some texture)
    (Some textureMapping) (schematic g) (blockCounts g).

(** The calls that write cells, and a caller that issues them in sequence
    and stops at the first one that throws. *)
Inductive CellOp : Type :=
  | SetBlock (type x y z : Z)
  | PushBlock (type : Z).

Definition opType (o : CellOp) : Z :=
  match o with
  | SetBlock t _ _ _ => t
  | PushBlock t => t
  end.

Definition applyOp (o : CellOp) (g : UnpackedSchematic)
  : UnpackedSchematic * Completion unit :=
  match o with
  | SetBlock t x y z => setBlock t x y z g
  | PushBlock t => pushBlock t g
  end.

Fixpoint runOps (ops : list CellOp) (g : UnpackedSchematic)
  : UnpackedSchematic * Completion unit :=
  match ops with
  | [] => (g, Return tt)
  | o :: ops' =>
      match applyOp o g with
      | (g', Return _) => runOps ops' g'
      | (g', Throw e) => (g', Throw e)
      end
  end.

(* ===================================================================== *)
(** ** Typed arrays and the host's matrices *)

(** [Math.fround]: the binary32 value nearest to a double (ties to even),
    which is what a store into a [Float32Array] keeps. *)
Definition fround (f : float) : float :=
  match Prim2SF f with
  | S754_finite s m e => SF2Prim (SpecFloat.binary_round 24 128 s m e)
  | _ => f
  end.

(** A [Float32Array]: element read (an index past the end reads
    [undefined], which compares unequal to every number, like [nan]) and
    element write (rounded; past the end it is dropped). *)
Definition f32_get (a : list float) (i : nat) : float := nth i a nan.

Definition f32_set (a : list float) (i : nat) (v : float) : list float :=
  <[i := fround v]> a.

(** [for (let i = 0; i < n; i++) body(i)] on nat and on Z bounds. *)
Definition forNat {S : Type} (n : nat) (body : nat -> S -> S) (s : S) : S :=
  fold_left (fun s i => body i s) (seq 0 n) s.

Definition forRange {S : Type} (n : Z) (body : Z -> S -> S) (s : S) : S :=
  forNat (Z.to_nat n) (fun i => body (Z.of_nat i)) s.

(** The sixteen elements of a 4x4 matrix, column-major. *)
Definition Matrix4 : Type := list Z.

(** [dummy.position.set(x, y, z); dummy.updateMatrix()] on an object whose
    rotation and scale are never touched: the host composes the matrix of
    the translation by [(x, y, z)]. *)
Definition updateMatrix (x y z : Z) : Matrix4 :=
  [1; 0; 0; 0;  0; 1; 0; 0;  0; 0; 1; 0;  x; y; z; 1].

(** The components a matrix keeps of position, and whether its linear part
    is the identity. *)
Definition matrixPosition (m : Matrix4) : option (Z * Z * Z) :=
  match m with
  | [_; _; _; _; _; _; _; _; _; _; _; _; x; y; z; _] => Some (x, y, z)
  | _ => None
  end.

Definition translationOnly (m : Matrix4) : bool :=
  match m with
  | [1; 0; 0; 0; 0; 1; 0; 0; 0; 0; 1; 0; _; _; _; 1] => true
  | _ => false
  end.

(* ===================================================================== *)
(** ** class GeometryPlacer *)

Inductive Offset : Type := TOP | NORTH | EAST | SOUTH | WEST | BOTTOM.

Definition offsetValue (o : Offset) : nat :=
  match o with
  | TOP => 16
  | NORTH => 0
  | EAST => 8
  | SOUTH => 32
  | WEST => 40
  | BOTTOM => 24
  end.

Record GeometryPlacer : Type := mkPlacer {
  this_schematic : option UnpackedSchematic;
  uvCache : gmap Z (list float)
}.

(** [new GeometryPlacer()] *)
Definition newPlacer : GeometryPlacer := mkPlacer None ∅.

(** An instanced mesh as the placer creates it: the block type it is
    stored under, its [uv] attribute and the instance count it was
    constructed with. *)
Record InstancedMesh : Type := mkMesh {
  meshType : Z;
  meshUV : list float;
  meshCount : count
}.

(** A call [mesh.setMatrixAt(slot, matrix)] on the mesh of a block type. *)
Record MatrixWrite : Type := mkWrite {
  writeType : Z;
  writeSlot : Z;
  writeMatrix : Matrix4
}.

(** What a completed [create] has done: the meshes passed to [output], in
    order, and the [setMatrixAt] calls, in order. *)
Record Placed : Type := mkPlaced {
  emitted : list InstancedMesh;
  matrixWrites : list MatrixWrite
}.

(** [getTextureCount()!] used as a number. *)
Definition textureAmountOf (s : UnpackedSchematic) : float :=
  match textureCount s with
  | Some c => c
  | None => nan
  end.

Definition mapTextures (s : UnpackedSchematic) (mapping : list float)
    (stride : float) (offset : Offset) : list float :=
  let textureAmount := textureAmountOf s in
  let u0 := ((stride + 1) / textureAmount + 0.00001)%float in
  let v0 := 0.0%float in
  let u1 := ((stride + 1 + 1) / textureAmount - 0.00001)%float in
  let v1 := 1.0%float in
  let uvs := [u1; v1; u0; v1; u1; v0; u0; v0] in
  forNat 8 (fun i mapping =>
    if (f32_get mapping (offsetValue offset + i) =? -1)%float
    then f32_set mapping (offsetValue offset + i) (nth i uvs nan)
    else mapping) mapping.

(** The body of the [switch (key)] statement, fall-through included. *)
Definition switchKey (s : UnpackedSchematic) (key : string) (value : float)
    (uv : list float) : list float :=
  let sides uv :=
    let uv := mapTextures s uv value NORTH in
    let uv := mapTextures s uv value EAST in
    let uv := mapTextures s uv value SOUTH in
    mapTextures s uv value WEST in
  if String.eqb key "all" then
    let uv := mapTextures s uv value TOP in
    let uv := mapTextures s uv value BOTTOM in
    sides uv
  else if String.eqb key "side" then sides uv
  else if String.eqb key "top" then mapTextures s uv value TOP
  else if String.eqb key "bottom" then mapTextures s uv value BOTTOM
  else if String.eqb key "end" then
    let uv := mapTextures s uv value TOP in
    mapTextures s uv value BOTTOM
  else if String.eqb key "front" || String.eqb key "north" then
    mapTextures s uv value NORTH
  else if String.eqb key "east" then mapTextures s uv value EAST
  else if String.eqb key "south" then mapTextures s uv value SOUTH
  else if String.eqb key "west" then mapTextures s uv value WEST
  else uv.

Definition unwrapUVs (blockType : Z) (p : GeometryPlacer)
  : GeometryPlacer * Completion (option (list float)) :=
  match uvCache p !! blockType with
  | Some cached => (p, Return (Some cached))
  | None =>
      match this_schematic p with
      | None => (p, Throw TypeError)
      | Some s =>
          match textureDictionary s with
          | None => (p, Throw TypeError)
          | Some dictionary =>
              match dictionary !! blockType with
              | None => (p, Throw TypeError)       (* Object.keys(undefined) *)
              | Some blockUVData =>
                  if (length blockUVData =? 0)%nat then (p, Return None)
                  else
                    let uvMappedFaces := replicate 48 (-1)%float in
                    let uvMappedFaces :=
                      fold_left (fun uv kv => switchKey s (fst kv) (snd kv) uv)
                        blockUVData uvMappedFaces in
                    let uvMappedFaces :=
                      forNat 48 (fun i uv =>
                        if (f32_get uv i =? -1)%float then f32_set uv i 0.5%float
                        else uv) uvMappedFaces in
                    (mkPlacer (this_schematic p)
                       (<[blockType := uvMappedFaces]> (uvCache p)),
                     Return (Some uvMappedFaces))
              end
          end
      end
  end.

(** Truthiness of the three atlas fields. *)
Definition truthyNumber (v : option float) : bool :=
  match v with
  | Some f => negb (is_zero f || is_nan f)
  | None => false
  end.

Definition truthyString (v : option string) : bool :=
  match v with
  | Some s => negb (String.eqb s EmptyString)
  | None => false
  end.

Definition truthyObject {A} (v : option A) : bool :=
  match v with
  | Some _ => true
  | None => false
  end.

(** First loop of [create]: the UV attribute of every counted block type. *)
Fixpoint unwrapAll (blockTypes : list Z) (typeToUV : JsMap.t (list float))
    (p : GeometryPlacer) : GeometryPlacer * Completion (JsMap.t (list float)) :=
  match blockTypes with
  | [] => (p, Return typeToUV)
  | blockType :: rest =>
      match unwrapUVs blockType p with
      | (p', Throw e) => (p', Throw e)
      | (p', Return (Some uv)) => unwrapAll rest (JsMap.set blockType uv typeToUV) p'
      | (p', Return None) => unwrapAll rest typeToUV p'
      end
  end.

(** Second loop: one instanced mesh per block type that has a UV attribute,
    stored in [instancedMeshes] and handed to [output]. *)
Definition countOf (s : UnpackedSchematic) (blockType : Z) : count :=
  match JsMap.get blockType (blockCounts s) with
  | Some c => c
  | None => NaN
  end.

Fixpoint buildMeshes (s : UnpackedSchematic) (typeToUV : JsMap.t (list float))
    (blockTypes : list Z) (instancedMeshes : JsMap.t InstancedMesh)
    (out : list InstancedMesh) : JsMap.t InstancedMesh * list InstancedMesh :=
  match blockTypes with
  | [] => (instancedMeshes, out)
  | blockType :: rest =>
      match JsMap.get blockType typeToUV with
      | Some uv =>
          let mesh := mkMesh blockType uv (countOf s blockType) in
          buildMeshes s typeToUV rest (JsMap.set blockType mesh instancedMeshes)
            (out ++ [mesh])
      | None => buildMeshes s typeToUV rest instancedMeshes out
      end
  end.

(** Third loop: the scan.  Its state is the flat [index], the next free
    slot per block type and the [setMatrixAt] calls made so far. *)
Record ScanState : Type := mkScan {
  index : Z;
  blockIndexes : JsMap.t Z;
  writes : list MatrixWrite
}.

Definition scanCell (s : UnpackedSchematic) (instancedMeshes : JsMap.t InstancedMesh)
    (x y z : Z) (st : ScanState) : ScanState :=
  let blockType := array_get (schematic s) (index st) in
  let mesh :=
    match blockType with
    | Some bt => JsMap.get bt instancedMeshes
    | None => None
    end in
  match blockType, mesh with
  | Some bt, Some _ =>
      let matrix := updateMatrix x y z in
      let currentIndex := default 0 (JsMap.get bt (blockIndexes st)) in
      mkScan (index st + 1)
        (JsMap.set bt (currentIndex + 1) (blockIndexes st))
        (writes st ++ [mkWrite bt currentIndex matrix])
  | _, _ => mkScan (index st + 1) (blockIndexes st) (writes st)
  end.

Definition scanLoops {S : Type} (s : UnpackedSchematic)
    (body : Z -> Z -> Z -> S -> S) (st : S) : S :=
  forRange (sizeX s) (fun x =>
    forRange (sizeY s) (fun y =>
      forRange (sizeZ s) (fun z => body x y z))) st.

Definition scan (s : UnpackedSchematic) (instancedMeshes : JsMap.t InstancedMesh)
  : ScanState :=
  scanLoops s (scanCell s instancedMeshes) (mkScan 0 JsMap.empty []).

Definition create (s : UnpackedSchematic) (p : GeometryPlacer)
  : GeometryPlacer * Completion Placed :=
  if negb (truthyNumber (textureCount s)) || negb (truthyString (textureData s))
     || negb (truthyObject (textureDictionary s))
  then (p, Throw TextureNotSet)
  else
    let p := mkPlacer (Some s) (uvCache p) in
    let blockTypes := JsMap.keys (blockCounts s) in
    match unwrapAll blockTypes JsMap.empty p with
    | (p, Throw e) => (p, Throw e)
    | (p, Return typeToUV) =>
        let '(instancedMeshes, out) :=
          buildMeshes s typeToUV blockTypes JsMap.empty [] in
        let st := scan s instancedMeshes in
        (p, Return (mkPlaced out (writes st)))
    end.

(* ===================================================================== *)
(** ** Vocabulary for the statements *)

(** The counting prologue shared, statement for statement, by [setBlock]
    and [pushBlock]. *)
Definition counted (type : Z) (bc : JsMap.t count) : JsMap.t count :=
  let bc := if negb (JsMap.has type bc) && negb (type =? 0)
            then JsMap.set type (Num 0) bc else bc in
  JsMap.set type (plus_one (JsMap.get type bc)) bc.

(** How many calls of a sequence carry the block type [t]. *)
Definition callsWith (t : Z) (ops : list CellOp) : Z :=
  Z.of_nat (length (List.filter (fun o => opType o =? t) ops)).

(** How many elements of the flat array hold the block type [t]. *)
Definition cellsHolding (t : Z) (a : list (option Z)) : Z :=
  Z.of_nat (length (List.filter (fun c => bool_decide (c = Some t)) a)).

(** The grids a caller can build: constructed, then mutated through the
    public methods, a throwing call included (the caller may catch it). *)
Inductive reachable : UnpackedSchematic -> Prop :=
  | reach_new sx sy sz : reachable (newSchematic sx sy sz)
  | reach_setBlock t x y z g : reachable g -> reachable (fst (setBlock t x y z g))
  | reach_pushBlock t g : reachable g -> reachable (fst (pushBlock t g))
  | reach_setTextureData tex n d g : reachable g -> reachable (setTextureData tex n d g).

(** The eight floats of a face in a UV table. *)
Definition faceSlot (o : Offset) (uv : list float) : list float :=
  take 8 (drop (offsetValue o) uv).

(** The table [unwrapUVs] computes, caches and returns for a non-empty
    entry when the cache holds nothing for the type. *)
Definition unwrapFresh (s : UnpackedSchematic) (blockUVData : FaceMapping) : list float :=
  let uvMappedFaces := replicate 48 (-1)%float in
  let uvMappedFaces :=
    fold_left (fun uv kv => switchKey s (fst kv) (snd kv) uv)
      blockUVData uvMappedFaces in
  forNat 48 (fun i uv =>
    if (f32_get uv i =? -1)%float then f32_set uv i 0.5%float else uv) uvMappedFaces.

(** The rectangle of a tile as the specification words it:
    [u0 = (tileIndex+1)/tileCount + 1e-5], [u1 = (tileIndex+2)/tileCount - 1e-5],
    [v0 = 0], [v1 = 1], in the vertex order (u1,v1),(u0,v1),(u1,v0),(u0,v0);
    each value as a [Float32Array] holds it. *)
Definition tileRectangle (tileIndex tileCount : float) : list float :=
  let u0 := ((tileIndex + 1) / tileCount + 0.00001)%float in
  let u1 := ((tileIndex + 2) / tileCount - 0.00001)%float in
  let v0 := 0%float in
  let v1 := 1%float in
  map fround [u1; v1; u0; v1; u1; v0; u0; v0].

(** The loop coordinates of the scan in the order the three nested loops
    reach them. *)
Definition scanOrder (s : UnpackedSchematic) : list (Z * Z * Z) :=
  scanLoops s (fun x y z acc => acc ++ [(x, y, z)]) [].

(** The flat index the scan holds when its loops are at [(x, y, z)]. *)
Definition scanIndexAt (s : UnpackedSchematic) (x y z : Z) : Z :=
  x * (sizeY s * sizeZ s) + y * sizeZ s + z.

(** The values a [for] loop with bound [n] gives its variable. *)
Definition range (n : Z) : list Z := map Z.of_nat (seq 0 (Z.to_nat n)).

(** The next free slot the scan holds for a block type ([?? 0]). *)
Definition nextSlot (t : Z) (st : ScanState) : Z :=
  default 0 (JsMap.get t (blockIndexes st)).

(** The count of a type bounds the number of cells that hold it. *)
Definition countCoversCells (t : Z) (s : UnpackedSchematic) : Prop :=
  match JsMap.get t (blockCounts s) with
  | Some (Num c) => cellsHolding t (schematic s) <= c
  | Some NaN => False
  | None => cellsHolding t (schematic s) = 0
  end.

(** What the scan maintains: the next free slot of a type never exceeds
    the number of cells of that type among those already read, and every
    matrix written sits below the next free slot of its type. *)
Definition slotsFollowCells (s : UnpackedSchematic) (st : ScanState) : Prop :=
  0 <= index st
  /\ (forall t, 0 <= nextSlot t st
                <= cellsHolding t (take (Z.to_nat (index st)) (schematic s)))
  /\ (forall w, In w (writes st) ->
        0 <= writeSlot w < nextSlot (writeType w) st).

(** Two lists of floats differ when their [i]-th elements lie on different
    sides of [bound]. *)
Ltac differ_at i bound :=
  let H := fresh "H" in
  intros H;
  apply (f_equal (fun l => (nth i l 0 <? bound)%float)) in H;
  vm_compute in H; discriminate H.

(* ===================================================================== *)
(** ** Further vocabulary *)

(** The coordinates [setBlock] accepts. *)
Definition inBounds (g : UnpackedSchematic) (x y z : Z) : Prop :=
  0 <= x < sizeX g /\ 0 <= y < sizeY g /\ 0 <= z < sizeZ g.

(** The bound of the capacity check of [pushBlock]. *)
Definition capacity (g : UnpackedSchematic) : Z := sizeX g * sizeY g * sizeZ g.

(** The block types of a list in the order of their first occurrence. *)
Definition firstSeen (types : list Z) : list Z :=
  fold_left (fun acc t => if bool_decide (t ∈ acc) then acc else acc ++ [t]) types [].

(** The keys that have a [case] in the [switch] of [unwrapUVs]. *)
Definition caseKeys : list string :=
  ["all"; "side"; "top"; "bottom"; "end"; "front"; "north"; "east"; "south"; "west"]%string.

(** The eight values [mapTextures] offers to a face for a tile. *)
Definition faceUVs (s : UnpackedSchematic) (stride : float) : list float :=
  let textureAmount := textureAmountOf s in
  let u0 := ((stride + 1) / textureAmount + 0.00001)%float in
  let v0 := 0.0%float in
  let u1 := ((stride + 1 + 1) / textureAmount - 0.00001)%float in
  let v1 := 1.0%float in
  [u1; v1; u0; v1; u1; v0; u0; v0].

(** An element of a UV table that still holds the sentinel. *)
Definition unset (uv : list float) (i : nat) : bool := (f32_get uv i =? -1)%float.

(** The matrix writes of one block type, in the order they were made. *)
Definition writesOf (t : Z) (ws : list MatrixWrite) : list MatrixWrite :=
  List.filter (fun w => writeType w =? t) ws.

(** One turn of a loop that fills the unset elements of a UV table: the
    element at [off + i] takes the (rounded) value [val i] when it still
    holds the sentinel.  The loop of [mapTextures] and the final fill loop
    of [unwrapUVs] are both of this shape. *)
Definition offer (val : nat -> float) (off i : nat) (mapping : list float) : list float :=
  if (f32_get mapping (off + i) =? -1)%float
  then f32_set mapping (off + i) (val i)
  else mapping.

(** The table before the final fill loop: the entry's keys applied in
    order to the all-sentinel table. *)
Definition applyKeys (s : UnpackedSchematic) (blockUVData : FaceMapping)
    (uv : list float) : list float :=
  fold_left (fun uv kv => switchKey s (fst kv) (snd kv) uv) blockUVData uv.

(* ===================================================================== *)
(** ** Concrete grids used below *)

(** A 2 x 2 x 1 grid with one block of type 5 written at (1, 0, 0), type 5
    mapped to [{ "all": 0 }] in a one-tile atlas. *)
Definition gridTransposed : UnpackedSchematic :=
  fst (setBlock 5 1 0 0
         (setTextureData "atlas" 1%float {[ 5 := [("all"%string, 0%float)] ]}
            (newSchematic 2 2 1))).

(** A 1 x 1 x 1 grid after two [pushBlock(5)] calls: its array holds
    capacity + 1 elements. *)
Definition gridFull : UnpackedSchematic :=
  fst (pushBlock 5 (fst (pushBlock 5 (newSchematic 1 1 1)))).

(** One block of type 5; type 5 mapped to [{ "sides": 1 }], respectively
    [{ "side": 1 }], in a four-tile atlas. *)
Definition gridSides : UnpackedSchematic :=
  fst (setBlock 5 0 0 0
         (setTextureData "atlas" 4%float {[ 5 := [("sides"%string, 1%float)] ]}
            (newSchematic 1 1 1))).

Definition gridSide : UnpackedSchematic :=
  fst (setBlock 5 0 0 0
         (setTextureData "atlas" 4%float {[ 5 := [("side"%string, 1%float)] ]}
            (newSchematic 1 1 1))).

(** One block of type 5 mapped to [{ "top": 0, "side": 1 }], four tiles. *)
Definition gridTopSide : UnpackedSchematic :=
  fst (setBlock 5 0 0 0
         (setTextureData "atlas" 4%float
            {[ 5 := [("top"%string, 0%float); ("side"%string, 1%float)] ]}
            (newSchematic 1 1 1))).

(** One block of type 5 mapped to [{ "all": 0 }], four tiles. *)
Definition gridAll : UnpackedSchematic :=
  fst (setBlock 5 0 0 0
         (setTextureData "atlas" 4%float {[ 5 := [("all"%string, 0%float)] ]}
            (newSchematic 1 1 1))).

(** One block of type 5 and a dictionary with no entry at all. *)
Definition gridNoEntry : UnpackedSchematic :=
  fst (setBlock 5 0 0 0
         (setTextureData "atlas" 4%float ∅ (newSchematic 1 1 1))).

(** One block of type 5 and a dictionary whose entry for 5 is [{}]. *)
Definition gridEmptyEntry : UnpackedSchematic :=
  fst (setBlock 5 0 0 0
         (setTextureData "atlas" 4%float {[ 5 := [] ]} (newSchematic 1 1 1))).

(** One cell written with type 0, and a dictionary that maps type 0. *)
Definition gridAir : UnpackedSchematic :=
  fst (setBlock 0 0 0 0
         (setTextureData "atlas" 1%float {[ 0 := [("all"%string, 0%float)] ]}
            (newSchematic 1 1 1))).

(** A placer that has completed [create] on [gridAll]. *)
Definition placerAfterAll : GeometryPlacer := fst (create gridAll newPlacer).

(** Type 5 is written twice, then both cells are overwritten with type 7. *)
Definition opsOverwrite : list CellOp :=
  [SetBlock 5 0 0 0; PushBlock 5; SetBlock 7 0 0 0; SetBlock 7 1 0 0].

Definition gridOverwritten : UnpackedSchematic :=
  Eval vm_compute in fst (runOps opsOverwrite (newSchematic 2 1 1)).

(** The 2 x 1 x 1 grid with cells [5, 0], both appended, type 5 mapped to
    [{ "all": 0 }] in a one-tile atlas. *)
Definition gridBlockAndAir : UnpackedSchematic :=
  fst (pushBlock 0 (fst (pushBlock 5
         (setTextureData "atlas" 1%float {[ 5 := [("all"%string, 0%float)] ]}
            (newSchematic 2 1 1))))).

(** A 2 x 1 x 2 grid filled by three appends, 5, 7, 5, with type 5 mapped
    to [{ "all": 0 }] and type 7 to [{ "top": 1 }] in a two-tile atlas;
    what [create] returns on it, its first batch and its last matrix
    write. *)
Definition gridMixed : UnpackedSchematic :=
  fst (runOps [PushBlock 5; PushBlock 7; PushBlock 5]
         (setTextureData "atlas" 2%float
            {[ 5 := [("all"%string, 0%float)]; 7 := [("top"%string, 1%float)] ]}
            (newSchematic 2 1 2))).

Definition placedMixed : Placed :=
  Eval vm_compute in
    match snd (create gridMixed newPlacer) with
    | Return r => r
    | Throw _ => mkPlaced [] []
    end.

Definition meshMixed : InstancedMesh :=
  Eval vm_compute in hd (mkMesh 0 [] NaN) (emitted placedMixed).

Definition writeMixed : MatrixWrite :=
  Eval vm_compute in List.last (matrixWrites placedMixed) (mkWrite 0 0 []).



(* ===================================================================== *)
(** ** Insertion-ordered maps *)

Section JsMapFacts.
Context {V : Type}.
Implicit Types (m : JsMap.t V) (k : Z) (v : V).

Lemma get_set_eq k v m : JsMap.get k (JsMap.set k v m) = Some v.
Proof.
  induction m as [|[k' v'] m IH]; simpl.
  - by rewrite Z.eqb_refl.
  - destruct (k' =? k) eqn:E; simpl; rewrite E; auto.
Qed.

Lemma get_set_ne k k' v m : k <> k' -> JsMap.get k' (JsMap.set k v m) = JsMap.get k' m.
Proof.
  intros Hne. induction m as [|[k0 v0] m IH]; simpl.
  - destruct (k =? k') eqn:E; [apply Z.eqb_eq in E; contradiction | reflexivity].
  - destruct (k0 =? k) eqn:E; simpl.
    + apply Z.eqb_eq in E; subst k0.
      destruct (k =? k') eqn:E'; [apply Z.eqb_eq in E'; contradiction | reflexivity].
    + destruct (k0 =? k'); auto.
Qed.

Lemma has_get k m : JsMap.has k m = true <-> is_Some (JsMap.get k m).
Proof.
  unfold JsMap.has. destruct (JsMap.get k m); split; intros H; eauto.
  - discriminate.
  - destruct H; discriminate.
Qed.

Lemma has_false_get k m : JsMap.has k m = false <-> JsMap.get k m = None.
Proof. unfold JsMap.has. destruct (JsMap.get k m); split; congruence. Qed.

Lemma has_keys k m : JsMap.has k m = true <-> In k (JsMap.keys m).
Proof.
  unfold JsMap.has, JsMap.keys. induction m as [|[k' v'] m IH]; simpl.
  - split; [discriminate | tauto].
  - destruct (k' =? k) eqn:E.
    + apply Z.eqb_eq in E. split; auto.
    + apply Z.eqb_neq in E. rewrite IH. split; [auto | intros [?|?]; [contradiction | auto]].
Qed.

Lemma keys_set_present k v m :
  JsMap.has k m = true -> JsMap.keys (JsMap.set k v m) = JsMap.keys m.
Proof.
  unfold JsMap.has, JsMap.keys. induction m as [|[k' v'] m IH]; simpl; [discriminate|].
  destruct (k' =? k) eqn:E; simpl; [reflexivity|].
  intros H. by rewrite IH.
Qed.

Lemma keys_set_absent k v m :
  JsMap.has k m = false -> JsMap.keys (JsMap.set k v m) = JsMap.keys m ++ [k].
Proof.
  unfold JsMap.has, JsMap.keys. induction m as [|[k' v'] m IH]; simpl; [reflexivity|].
  destruct (k' =? k) eqn:E; simpl; [discriminate|].
  intros H. by rewrite IH.
Qed.
End JsMapFacts.

(* ===================================================================== *)
(** ** Counting *)

Lemma setBlock_counts type x y z g :
  blockCounts (fst (setBlock type x y z g)) = counted type (blockCounts g).
Proof. unfold setBlock; simpl. by destruct (_ || _). Qed.

Lemma pushBlock_counts type g :
  blockCounts (fst (pushBlock type g)) = counted type (blockCounts g).
Proof. unfold pushBlock; simpl. by destruct (_ >? _). Qed.

Lemma applyOp_counts o g :
  blockCounts (fst (applyOp o g)) = counted (opType o) (blockCounts g).
Proof. destruct o; [apply setBlock_counts | apply pushBlock_counts]. Qed.

(** A non-zero type: the entry is created at [0] when missing, then
    incremented. *)
Lemma counted_same t bc :
  t <> 0 ->
  JsMap.get t (counted t bc) =
    Some (plus_one (Some (default (Num 0) (JsMap.get t bc)))).
Proof.
  intros Ht. unfold counted.
  assert (Hz : (t =? 0) = false) by by apply Z.eqb_neq.
  rewrite Hz, andb_true_r. unfold JsMap.has.
  destruct (JsMap.get t bc) as [c|] eqn:E; simpl.
  - by rewrite get_set_eq, E.
  - by rewrite !get_set_eq.
Qed.

Lemma counted_other t t' bc :
  t <> t' -> JsMap.get t' (counted t bc) = JsMap.get t' bc.
Proof.
  intros Hne. unfold counted. rewrite get_set_ne by done.
  destruct (_ && _); [by apply get_set_ne | done].
Qed.

(** Type 0: no entry is created, but the increment is still stored. *)
Lemma counted_zero bc :
  JsMap.get 0 (counted 0 bc) = Some (plus_one (JsMap.get 0 bc)).
Proof. unfold counted. simpl. rewrite andb_false_r. apply get_set_eq. Qed.

Lemma runOps_app ops1 ops2 g :
  runOps (ops1 ++ ops2) g =
    match runOps ops1 g with
    | (g', Return _) => runOps ops2 g'
    | (g', Throw e) => (g', Throw e)
    end.
Proof.
  revert g. induction ops1 as [|o ops1 IH]; intros g; simpl; [done|].
  destruct (applyOp o g) as [g' [[]|e]]; [apply IH | done].
Qed.

Lemma callsWith_cons t o ops :
  callsWith t (o :: ops) = (if opType o =? t then 1 else 0) + callsWith t ops.
Proof.
  unfold callsWith. simpl. destruct (opType o =? t); simpl length; lia.
Qed.

Lemma callsWith_nonneg t ops : 0 <= callsWith t ops.
Proof. unfold callsWith. lia. Qed.

(** The count of a non-zero type after a run that did not throw, from any
    grid whose entry for the type is absent or a positive integer. *)
Lemma runOps_count t ops : forall g g' n,
  t <> 0 -> 0 <= n ->
  JsMap.get t (blockCounts g) = (if n =? 0 then None else Some (Num n)) ->
  runOps ops g = (g', Return tt) ->
  JsMap.get t (blockCounts g') =
    (if n + callsWith t ops =? 0 then None else Some (Num (n + callsWith t ops))).
Proof.
  induction ops as [|o ops IH]; intros g g' n Ht Hn Hg Hrun; simpl in Hrun.
  - inversion Hrun; subst. unfold callsWith; simpl. by rewrite Z.add_0_r.
  - destruct (applyOp o g) as [g1 [[]|e]] eqn:Ho; [|discriminate].
    assert (Hc : blockCounts g1 = counted (opType o) (blockCounts g))
      by (rewrite <- applyOp_counts; by rewrite Ho).
    rewrite callsWith_cons. pose proof (callsWith_nonneg t ops) as Hk.
    destruct (opType o =? t) eqn:E.
    + apply Z.eqb_eq in E. rewrite E in Hc.
      replace (n + (1 + callsWith t ops)) with ((n + 1) + callsWith t ops) by lia.
      apply (IH g1 g' (n + 1)); [done | lia | | done].
      rewrite Hc, counted_same, Hg by done.
      destruct (n =? 0) eqn:En; simpl.
      * apply Z.eqb_eq in En; subst n. reflexivity.
      * destruct (n + 1 =? 0) eqn:En1; [apply Z.eqb_eq in En1; lia | reflexivity].
    + apply Z.eqb_neq in E.
      replace (n + (0 + callsWith t ops)) with (n + callsWith t ops) by lia.
      apply (IH g1 g' n); [done | done | | done].
      by rewrite Hc, counted_other.
Qed.

(** C2 (the code departs from the claim): a write of type 0 is not left out
    of the occurrence counts.  The guard [type != 0] only protects the
    initialisation to 0; the increment runs for every type, so a call with
    type 0 always leaves an entry for 0, and on a grid that had none the
    entry is [undefined + 1 = NaN]. *)
Theorem type_zero_write_leaves_entry (g : UnpackedSchematic) (x y z : Z) :
  JsMap.has 0 (blockCounts (fst (setBlock 0 x y z g))) = true
  /\ JsMap.has 0 (blockCounts (fst (pushBlock 0 g))) = true
  /\ blockCounts (fst (setBlock 0 0 0 0 (newSchematic 1 1 1))) = [(0, NaN)]
  /\ blockCounts (fst (pushBlock 0 (newSchematic 1 1 1))) = [(0, NaN)]
  /\ blockCounts (newSchematic 1 1 1) = [].
Proof.
  repeat split.
  - rewrite setBlock_counts. apply has_get. rewrite counted_zero. eauto.
  - rewrite pushBlock_counts. apply has_get. rewrite counted_zero. eauto.
Qed.

(* ===================================================================== *)
(** ** Appending and the capacity check *)

Lemma pushBlock_throws_iff t g :
  snd (pushBlock t g) = Throw SchematicFull
  <-> Z.of_nat (length (schematic g)) > sizeX g * sizeY g * sizeZ g.
Proof.
  unfold pushBlock; simpl.
  destruct (Z.of_nat (length (schematic g)) >? sizeX g * sizeY g * sizeZ g) eqn:E; simpl.
  - split; [intros _; by apply Z.gtb_gt | done].
  - split; [discriminate | intros H; apply Z.gtb_gt in H; congruence].
Qed.

Lemma pushBlock_returns t g :
  Z.of_nat (length (schematic g)) <= sizeX g * sizeY g * sizeZ g ->
  snd (pushBlock t g) = Return tt
  /\ schematic (fst (pushBlock t g)) = schematic g ++ [Some t]
  /\ sizeX (fst (pushBlock t g)) = sizeX g
  /\ sizeY (fst (pushBlock t g)) = sizeY g
  /\ sizeZ (fst (pushBlock t g)) = sizeZ g.
Proof.
  intros H. unfold pushBlock; simpl.
  destruct (Z.of_nat (length (schematic g)) >? sizeX g * sizeY g * sizeZ g) eqn:E.
  - apply Z.gtb_gt in E. lia.
  - simpl. done.
Qed.

(** Appends succeed as long as the array, before the call, is no longer
    than the capacity. *)
Lemma pushes_return types : forall g,
  Z.of_nat (length (schematic g)) + Z.of_nat (length types)
    <= sizeX g * sizeY g * sizeZ g + 1 ->
  exists g', runOps (map PushBlock types) g = (g', Return tt)
    /\ schematic g' = schematic g ++ map Some types
    /\ sizeX g' = sizeX g /\ sizeY g' = sizeY g /\ sizeZ g' = sizeZ g.
Proof.
  induction types as [|t types IH]; intros g Hlen; simpl.
  - exists g. by rewrite app_nil_r.
  - simpl in Hlen.
    destruct (pushBlock_returns t g) as (Hr & Hs & Hx & Hy & Hz); [lia|].
    destruct (pushBlock t g) as [g1 c] eqn:Hp. simpl in *. subst c.
    destruct (IH g1) as (g' & Hrun & Hs' & Hx' & Hy' & Hz').
    { rewrite Hs, Hx, Hy, Hz, length_app. simpl. lia. }
    exists g'. rewrite Hrun, Hs', Hs, <- app_assoc. simpl.
    repeat split; congruence.
Qed.

(** C4: from a new grid, the first [sizeX*sizeY*sizeZ + 1] appends all
    return (the array then holds capacity + 1 elements, in call order), and
    every further append throws "Schematic is full!"; an append throws
    exactly when the array is already strictly longer than the capacity. *)
Theorem pushBlock_capacity_plus_one (sx sy sz : Z) (types : list Z) :
  length types = Z.to_nat (sx * sy * sz + 1) ->
  (exists g,
      runOps (map PushBlock types) (newSchematic sx sy sz) = (g, Return tt)
      /\ schematic g = map Some types
      /\ forall t, snd (pushBlock t g) = Throw SchematicFull)
  /\ (forall t g, snd (pushBlock t g) = Throw SchematicFull
        <-> Z.of_nat (length (schematic g)) > sizeX g * sizeY g * sizeZ g).
Proof.
  intros Hlen. split; [|intros t g; apply pushBlock_throws_iff].
  destruct (Z.le_gt_cases 0 (sx * sy * sz + 1)) as [Hcap|Hcap].
  - destruct (pushes_return types (newSchematic sx sy sz))
      as (g & Hrun & Hs & Hx & Hy & Hz).
    { simpl. lia. }
    exists g. repeat split; [done | done |].
    intros t. apply pushBlock_throws_iff.
    rewrite Hs, Hx, Hy, Hz. simpl. rewrite length_map. lia.
  - assert (types = []) as -> by (apply length_zero_iff_nil; lia).
    exists (newSchematic sx sy sz). repeat split.
    intros t. apply pushBlock_throws_iff. simpl. lia.
Qed.

Lemma pushBlock_capacity_plus_one_witness :
  (exists g,
      runOps (map PushBlock [7; 0; 7]) (newSchematic 2 1 1) = (g, Return tt)
      /\ schematic g = map Some [7; 0; 7]
      /\ forall t, snd (pushBlock t g) = Throw SchematicFull)
  /\ (forall t g, snd (pushBlock t g) = Throw SchematicFull
        <-> Z.of_nat (length (schematic g)) > sizeX g * sizeY g * sizeZ g).
Proof. apply (pushBlock_capacity_plus_one 2 1 1 [7; 0; 7]). reflexivity. Defined.

(** C5 as stated fails: the third append to a 1 x 1 x 1 grid throws, and
    the count of type 5 has gone from 2 to 3. *)
Lemma pushBlock_throw_keeps_increment :
  snd (pushBlock 5 gridFull) = Throw SchematicFull
  /\ schematic (fst (pushBlock 5 gridFull)) = schematic gridFull
  /\ blockCounts gridFull = [(5, Num 2)]
  /\ blockCounts (fst (pushBlock 5 gridFull)) = [(5, Num 3)]
  /\ blockCounts (fst (pushBlock 5 gridFull)) <> blockCounts gridFull.
Proof. repeat split; try reflexivity. discriminate. Qed.

(** C5 (amended): when [pushBlock] throws "Schematic is full!", the flat
    array, the dimensions and the atlas fields are as before the call and
    so is the count of every other type; the count of the appended type,
    when it is not 0, has already been incremented (from 0 if it had no
    entry). *)
Theorem pushBlock_throw_effects (t : Z) (g : UnpackedSchematic) :
  snd (pushBlock t g) = Throw SchematicFull ->
  fst (pushBlock t g) = with_blockCounts g (blockCounts (fst (pushBlock t g)))
  /\ schematic (fst (pushBlock t g)) = schematic g
  /\ (forall t', t' <> t ->
        JsMap.get t' (blockCounts (fst (pushBlock t g))) = JsMap.get t' (blockCounts g))
  /\ (t <> 0 ->
        JsMap.get t (blockCounts (fst (pushBlock t g)))
        = Some (plus_one (Some (default (Num 0) (JsMap.get t (blockCounts g)))))).
Proof.
  intros Hthrow.
  assert (Hfst : fst (pushBlock t g) = with_blockCounts g (counted t (blockCounts g))).
  { revert Hthrow. unfold pushBlock; simpl. by destruct (_ >? _). }
  rewrite Hfst. simpl. repeat split; try done.
  - intros t' Hne. by apply counted_other.
  - intros Ht. by apply counted_same.
Qed.

Lemma pushBlock_throw_effects_witness :
  fst (pushBlock 5 gridFull) = with_blockCounts gridFull (blockCounts (fst (pushBlock 5 gridFull)))
  /\ schematic (fst (pushBlock 5 gridFull)) = schematic gridFull
  /\ (forall t', t' <> 5 ->
        JsMap.get t' (blockCounts (fst (pushBlock 5 gridFull)))
        = JsMap.get t' (blockCounts gridFull))
  /\ (5 <> 0 ->
        JsMap.get 5 (blockCounts (fst (pushBlock 5 gridFull)))
        = Some (plus_one (Some (default (Num 0) (JsMap.get 5 (blockCounts gridFull)))))).
Proof. apply (pushBlock_throw_effects 5 gridFull). reflexivity. Defined.

(** C6: after a sequence of [setBlock] and [pushBlock] calls on a new grid,
    none of which threw, the count of a non-zero type is the number of
    calls that carried it (no entry when there was none): overwriting a
    cell decrements nothing. *)
Theorem count_is_number_of_calls (sx sy sz : Z) (ops : list CellOp)
    (g : UnpackedSchematic) (t : Z) :
  t <> 0 ->
  runOps ops (newSchematic sx sy sz) = (g, Return tt) ->
  JsMap.get t (blockCounts g) =
    (if callsWith t ops =? 0 then None else Some (Num (callsWith t ops))).
Proof.
  intros Ht Hrun.
  apply (runOps_count t ops (newSchematic sx sy sz) g 0); done.
Qed.

(** No cell of [gridOverwritten] holds type 5; its count is the two calls
    that wrote it. *)
Lemma count_is_number_of_calls_witness :
  JsMap.get 5 (blockCounts gridOverwritten) =
    (if callsWith 5 opsOverwrite =? 0 then None
     else Some (Num (callsWith 5 opsOverwrite)))
  /\ callsWith 5 opsOverwrite = 2
  /\ schematic gridOverwritten = [Some 7; Some 7].
Proof.
  split; [|split; reflexivity].
  apply (count_is_number_of_calls 2 1 1 opsOverwrite gridOverwritten 5).
  - discriminate.
  - vm_compute. reflexivity.
Defined.

(* ===================================================================== *)
(** ** The atlas check of [create] *)

Lemma applyOp_atlas o g :
  textureCount (fst (applyOp o g)) = textureCount g
  /\ textureData (fst (applyOp o g)) = textureData g
  /\ textureDictionary (fst (applyOp o g)) = textureDictionary g.
Proof.
  destruct o; simpl; [unfold setBlock | unfold pushBlock]; simpl.
  - by destruct (_ || _).
  - by destruct (_ >? _).
Qed.

Lemma runOps_atlas ops : forall g,
  textureCount (fst (runOps ops g)) = textureCount g
  /\ textureData (fst (runOps ops g)) = textureData g
  /\ textureDictionary (fst (runOps ops g)) = textureDictionary g.
Proof.
  induction ops as [|o ops IH]; intros g; simpl; [done|].
  pose proof (applyOp_atlas o g) as (H1 & H2 & H3).
  destruct (applyOp o g) as [g1 [[]|e]]; simpl in *.
  - destruct (IH g1) as (I1 & I2 & I3). repeat split; congruence.
  - done.
Qed.

(** C10: [create] throws "Texture data is not set!" after a
    [setTextureData] call whose tile count is 0 or whose atlas string is
    empty, as it does on a grid on which [setTextureData] was never called;
    the placer is left as it was. *)
Theorem create_rejects_falsy_atlas (s : UnpackedSchematic) (p : GeometryPlacer)
    (texture : string) (n : float) (dict : gmap Z FaceMapping)
    (sx sy sz : Z) (ops : list CellOp) :
  n = 0%float \/ texture = EmptyString ->
  create (setTextureData texture n dict s) p = (p, Throw TextureNotSet)
  /\ create (fst (runOps ops (newSchematic sx sy sz))) p = (p, Throw TextureNotSet).
Proof.
  intros H. split.
  - unfold create. simpl.
    destruct H as [-> | ->]; simpl; [reflexivity|].
    by rewrite orb_true_r.
  - unfold create.
    destruct (runOps_atlas ops (newSchematic sx sy sz)) as (-> & _ & _). reflexivity.
Qed.

Lemma create_rejects_falsy_atlas_witness :
  create (setTextureData EmptyString 0%float ∅ (newSchematic 1 1 1)) newPlacer
    = (newPlacer, Throw TextureNotSet)
  /\ create (fst (runOps [PushBlock 5] (newSchematic 1 1 1))) newPlacer
    = (newPlacer, Throw TextureNotSet).
Proof.
  apply (create_rejects_falsy_atlas
           (newSchematic 1 1 1) newPlacer EmptyString 0%float ∅ 1 1 1 [PushBlock 5]).
  left. reflexivity.
Defined.

(** Every falsy tile count is refused: [0], [-0] and [NaN]. *)
Lemma create_rejects_falsy_counts (s : UnpackedSchematic) (p : GeometryPlacer)
    (texture : string) (dict : gmap Z FaceMapping) :
  create (setTextureData texture (-0)%float dict s) p = (p, Throw TextureNotSet)
  /\ create (setTextureData texture nan dict s) p = (p, Throw TextureNotSet).
Proof. split; reflexivity. Qed.

(* ===================================================================== *)
(** ** Unwrapping *)

Lemma unwrapUVs_hit t p cached :
  uvCache p !! t = Some cached -> unwrapUVs t p = (p, Return (Some cached)).
Proof. intros H. unfold unwrapUVs. by rewrite H. Qed.

Lemma unwrapUVs_miss t p s d e :
  uvCache p !! t = None ->
  this_schematic p = Some s ->
  textureDictionary s = Some d ->
  d !! t = Some e ->
  e <> [] ->
  unwrapUVs t p =
    (mkPlacer (Some s) (<[t := unwrapFresh s e]> (uvCache p)),
     Return (Some (unwrapFresh s e))).
Proof.
  intros Hc Hs Hd He Hne. unfold unwrapUVs, unwrapFresh. rewrite Hc, Hs, Hd, He.
  destruct e as [|kv e]; [congruence|].
  change (length (kv :: e) =? 0)%nat with false. cbv iota. reflexivity.
Qed.

Lemma unwrapUVs_empty t p s d :
  uvCache p !! t = None ->
  this_schematic p = Some s ->
  textureDictionary s = Some d ->
  d !! t = Some [] ->
  unwrapUVs t p = (p, Return None).
Proof. intros Hc Hs Hd He. unfold unwrapUVs. by rewrite Hc, Hs, Hd, He. Qed.

Lemma unwrapUVs_no_entry t p s d :
  uvCache p !! t = None ->
  this_schematic p = Some s ->
  textureDictionary s = Some d ->
  d !! t = None ->
  unwrapUVs t p = (p, Throw TypeError).
Proof. intros Hc Hs Hd He. unfold unwrapUVs. by rewrite Hc, Hs, Hd, He. Qed.

(** The table depends on the grid through its tile count only. *)
Lemma mapTextures_textureCount s s' uv v o :
  textureCount s = textureCount s' -> mapTextures s uv v o = mapTextures s' uv v o.
Proof. intros H. unfold mapTextures, textureAmountOf. by rewrite H. Qed.

Lemma switchKey_textureCount s s' k v uv :
  textureCount s = textureCount s' -> switchKey s k v uv = switchKey s' k v uv.
Proof.
  intros H. unfold switchKey.
  repeat (rewrite !(mapTextures_textureCount s s') by done).
  reflexivity.
Qed.

Lemma fold_switchKey_textureCount s s' (e : FaceMapping) : forall uv,
  textureCount s = textureCount s' ->
  fold_left (fun uv kv => switchKey s (fst kv) (snd kv) uv) e uv
  = fold_left (fun uv kv => switchKey s' (fst kv) (snd kv) uv) e uv.
Proof.
  intros uv H. revert uv.
  induction e as [|[k v] e IH]; intros uv; [reflexivity|].
  cbn [fold_left fst snd].
  rewrite (switchKey_textureCount s s' k v uv H). apply IH.
Qed.

Lemma unwrapFresh_textureCount s s' e :
  textureCount s = textureCount s' -> unwrapFresh s e = unwrapFresh s' e.
Proof.
  intros H. unfold unwrapFresh.
  rewrite (fold_switchKey_textureCount s s' e _ H). reflexivity.
Qed.

(** C3 (the code departs from the claim): the key ["sides"], which the
    documentation of [setTextureData] lists, has no [case] in the
    [switch]: it reaches [default] and writes nothing.  An entry
    [{ "sides": 1 }] gives the all-fallback table, where [{ "side": 1 }]
    gives the rectangle of tile 1 on the four vertical faces. *)
Theorem sides_key_is_not_recognised (s : UnpackedSchematic) (value : float)
    (uv : list float) :
  switchKey s "sides" value uv = uv
  /\ snd (unwrapUVs 5 (mkPlacer (Some gridSides) ∅))
     = Return (Some (replicate 48 0.5%float))
  /\ (exists table,
        snd (unwrapUVs 5 (mkPlacer (Some gridSide) ∅)) = Return (Some table)
        /\ faceSlot NORTH table = tileRectangle 1 4
        /\ faceSlot EAST table = tileRectangle 1 4
        /\ faceSlot SOUTH table = tileRectangle 1 4
        /\ faceSlot WEST table = tileRectangle 1 4
        /\ tileRectangle 1 4 <> replicate 8 0.5%float).
Proof.
  split; [reflexivity|]. split; [vm_compute; reflexivity|].
  eexists. split; [vm_compute; reflexivity|].
  repeat split; try (vm_compute; reflexivity).
  differ_at 0%nat 0.6%float.
Qed.

(** C7 as stated fails: a placer that has run [create] on a grid mapping
    type 5 to [{ "all": 0 }] keeps that table; [create] on a second grid
    that maps type 5 to [{ "top": 0, "side": 1 }] (four tiles) finds it in
    the cache and emits it: the bottom face carries tile 0, not 0.5, and
    the vertical faces carry tile 0, not tile 1. *)
Lemma unwrapUVs_returns_cached_table :
  (exists d, textureDictionary gridTopSide = Some d
     /\ d !! 5 = Some [("top"%string, 0%float); ("side"%string, 1%float)])
  /\ textureCount gridTopSide = Some 4%float
  /\ exists table,
       snd (unwrapUVs 5 (mkPlacer (Some gridTopSide) (uvCache placerAfterAll)))
         = Return (Some table)
       /\ (exists r, snd (create gridTopSide placerAfterAll) = Return r
             /\ map meshUV (emitted r) = [table])
       /\ faceSlot BOTTOM table = tileRectangle 0 4
       /\ faceSlot BOTTOM table <> replicate 8 0.5%float
       /\ faceSlot NORTH table <> tileRectangle 1 4.
Proof.
  split; [eexists; split; reflexivity|]. split; [reflexivity|].
  eexists. split; [vm_compute; reflexivity|].
  split; [eexists; split; vm_compute; reflexivity|].
  split; [vm_compute; reflexivity|].
  split; [differ_at 0%nat 0.5%float | differ_at 0%nat 0.6%float].
Qed.

(** C7 (amended): when the placer holds no cached table for the type, an
    entry [{ "top": 0, "side": 1 }] with a tile count of 4 makes
    [unwrapUVs] return a table of 48 floats whose top face is the rectangle
    of tile 0, whose north, east, south and west faces are the rectangle of
    tile 1, and whose bottom face is eight times 0.5; the table is cached
    under the type. *)
Theorem unwrapUVs_top_side (p : GeometryPlacer) (s : UnpackedSchematic)
    (d : gmap Z FaceMapping) (t : Z) :
  uvCache p !! t = None ->
  this_schematic p = Some s ->
  textureCount s = Some 4%float ->
  textureDictionary s = Some d ->
  d !! t = Some [("top"%string, 0%float); ("side"%string, 1%float)] ->
  exists table,
    unwrapUVs t p = (mkPlacer (Some s) (<[t := table]> (uvCache p)), Return (Some table))
    /\ length table = 48%nat
    /\ faceSlot TOP table = tileRectangle 0 4
    /\ faceSlot NORTH table = tileRectangle 1 4
    /\ faceSlot EAST table = tileRectangle 1 4
    /\ faceSlot SOUTH table = tileRectangle 1 4
    /\ faceSlot WEST table = tileRectangle 1 4
    /\ faceSlot BOTTOM table = replicate 8 0.5%float.
Proof.
  intros Hc Hs Hn Hd He.
  exists (unwrapFresh gridTopSide [("top"%string, 0%float); ("side"%string, 1%float)]).
  split.
  - rewrite (unwrapUVs_miss t p s d _ Hc Hs Hd He) by discriminate.
    by rewrite (unwrapFresh_textureCount s gridTopSide) by (by rewrite Hn).
  - repeat split; vm_compute; reflexivity.
Qed.

Lemma unwrapUVs_top_side_witness :
  exists table,
    unwrapUVs 5 (mkPlacer (Some gridTopSide) ∅)
      = (mkPlacer (Some gridTopSide) (<[5 := table]> ∅), Return (Some table))
    /\ length table = 48%nat
    /\ faceSlot TOP table = tileRectangle 0 4
    /\ faceSlot NORTH table = tileRectangle 1 4
    /\ faceSlot EAST table = tileRectangle 1 4
    /\ faceSlot SOUTH table = tileRectangle 1 4
    /\ faceSlot WEST table = tileRectangle 1 4
    /\ faceSlot BOTTOM table = replicate 8 0.5%float.
Proof.
  apply (unwrapUVs_top_side (mkPlacer (Some gridTopSide) ∅) gridTopSide
           {[ 5 := [("top"%string, 0%float); ("side"%string, 1%float)] ]} 5);
    reflexivity.
Defined.

(* ===================================================================== *)
(** ** Loops *)

Lemma forNat_invariant {S : Type} (P : S -> Prop) (n : nat) (body : nat -> S -> S) (s : S) :
  (forall i s, P s -> P (body i s)) -> P s -> P (forNat n body s).
Proof.
  intros Hbody. unfold forNat. generalize 0%nat as start. revert s.
  induction n as [|n IH]; intros s start Hs; simpl; [done|].
  apply IH. by apply Hbody.
Qed.

Lemma forRange_invariant {S : Type} (P : S -> Prop) (n : Z) (body : Z -> S -> S) (s : S) :
  (forall i s, P s -> P (body i s)) -> P s -> P (forRange n body s).
Proof. intros Hbody. apply forNat_invariant. intros i. apply Hbody. Qed.

Lemma scanLoops_invariant {S : Type} (P : S -> Prop) (g : UnpackedSchematic)
    (body : Z -> Z -> Z -> S -> S) (st : S) :
  (forall x y z st, P st -> P (body x y z st)) -> P st -> P (scanLoops g body st).
Proof.
  intros Hbody Hst. unfold scanLoops.
  apply forRange_invariant; [|done]. intros x st1 H1.
  apply forRange_invariant; [|done]. intros y st2 H2.
  apply forRange_invariant; [|done]. intros z st3 H3. by apply Hbody.
Qed.

(* ===================================================================== *)
(** ** The three loops of [create] *)

Lemma unwrapUVs_schematic t p : this_schematic (fst (unwrapUVs t p)) = this_schematic p.
Proof.
  unfold unwrapUVs.
  destruct (uvCache p !! t); [done|].
  destruct (this_schematic p) as [s|] eqn:Hs; [|by rewrite ?Hs].
  destruct (textureDictionary s) as [d|]; [|by rewrite ?Hs].
  destruct (d !! t) as [e|]; [|by rewrite ?Hs].
  destruct (length e =? 0)%nat; simpl; by rewrite ?Hs.
Qed.

Lemma unwrapUVs_cache_other t t' p :
  t <> t' -> uvCache (fst (unwrapUVs t p)) !! t' = uvCache p !! t'.
Proof.
  intros Hne. unfold unwrapUVs.
  destruct (uvCache p !! t); [done|].
  destruct (this_schematic p) as [s|]; [|done].
  destruct (textureDictionary s) as [d|]; [|done].
  destruct (d !! t) as [e|]; [|done].
  destruct (length e =? 0)%nat; simpl; [done|].
  by rewrite lookup_insert_ne.
Qed.

Lemma unwrapUVs_only_TypeError t p e : snd (unwrapUVs t p) = Throw e -> e = TypeError.
Proof.
  unfold unwrapUVs.
  destruct (uvCache p !! t); [discriminate|].
  destruct (this_schematic p) as [s|]; [|simpl; congruence].
  destruct (textureDictionary s) as [d|]; [|simpl; congruence].
  destruct (d !! t) as [fm|]; [|simpl; congruence].
  destruct (length fm =? 0)%nat; discriminate.
Qed.

Lemma unwrapUVs_None_unchanged t p :
  snd (unwrapUVs t p) = Return None -> fst (unwrapUVs t p) = p.
Proof.
  unfold unwrapUVs.
  destruct (uvCache p !! t); [done|].
  destruct (this_schematic p) as [s|]; [|done].
  destruct (textureDictionary s) as [d|]; [|done].
  destruct (d !! t) as [fm|]; [|done].
  destruct (length fm =? 0)%nat; [done | discriminate].
Qed.

(** A non-empty entry always yields a table, cached or computed. *)
Lemma unwrapUVs_nonempty t p s d e :
  this_schematic p = Some s ->
  textureDictionary s = Some d ->
  d !! t = Some e -> e <> [] ->
  exists uv, snd (unwrapUVs t p) = Return (Some uv).
Proof.
  intros Hs Hd He Hne.
  destruct (uvCache p !! t) as [c|] eqn:Hc.
  - exists c. by rewrite (unwrapUVs_hit t p c).
  - eexists. by rewrite (unwrapUVs_miss t p s d e).
Qed.

Section CreateLoops.
Variables (s : UnpackedSchematic) (d : gmap Z FaceMapping) (t : Z).
Hypothesis Hdict : textureDictionary s = Some d.

(** A counted type without a dictionary entry and without a cached
    table stops the first loop with a [TypeError]. *)
Lemma unwrapAll_no_entry blockTypes : forall acc p,
  d !! t = None ->
  this_schematic p = Some s ->
  uvCache p !! t = None ->
  In t blockTypes ->
  exists p', unwrapAll blockTypes acc p = (p', Throw TypeError).
Proof using Hdict.
  intros acc p Hnone. revert acc p.
  induction blockTypes as [|bt rest IH]; intros acc p Hs Hc Hin; [destruct Hin|].
  simpl. destruct (decide (bt = t)) as [->|Hne].
  - rewrite (unwrapUVs_no_entry t p s d) by done. eauto.
  - destruct Hin as [?|Hin]; [done|].
    pose proof (unwrapUVs_schematic bt p) as H1.
    pose proof (unwrapUVs_cache_other bt t p Hne) as H2.
    pose proof (unwrapUVs_only_TypeError bt p) as H3.
    destruct (unwrapUVs bt p) as [p1 [[uv|]|e]]; simpl in *.
    + apply IH; [congruence | congruence | done].
    + apply IH; [congruence | congruence | done].
    + rewrite (H3 e) by done. eauto.
Qed.

(** A type whose entry is [{}] and that has no cached table never gets
    a UV attribute. *)
Lemma unwrapAll_empty_entry blockTypes : forall acc p p' typeToUV,
  d !! t = Some [] ->
  this_schematic p = Some s ->
  uvCache p !! t = None ->
  JsMap.get t acc = None ->
  unwrapAll blockTypes acc p = (p', Return typeToUV) ->
  JsMap.get t typeToUV = None.
Proof using Hdict.
  intros acc p p' typeToUV Hempty. revert acc p.
  induction blockTypes as [|bt rest IH]; intros acc p Hs Hc Hacc Hrun; simpl in Hrun.
  - by inversion Hrun; subst.
  - destruct (decide (bt = t)) as [->|Hne].
    + rewrite (unwrapUVs_empty t p s d) in Hrun by done. by apply (IH acc p).
    + pose proof (unwrapUVs_schematic bt p) as H1.
      pose proof (unwrapUVs_cache_other bt t p Hne) as H2.
      destruct (unwrapUVs bt p) as [p1 [[uv|]|e]]; simpl in *; [| |discriminate].
      * apply (IH (JsMap.set bt uv acc) p1); [congruence | congruence | | done].
        by rewrite get_set_ne.
      * apply (IH acc p1); [congruence | congruence | done | done].
Qed.

(** What the accumulator holds is kept (possibly overwritten). *)
Lemma unwrapAll_keeps blockTypes : forall acc p p' typeToUV,
  is_Some (JsMap.get t acc) ->
  unwrapAll blockTypes acc p = (p', Return typeToUV) ->
  is_Some (JsMap.get t typeToUV).
Proof.
  induction blockTypes as [|bt rest IH]; intros acc p p' typeToUV Hacc Hrun; simpl in Hrun.
  - by inversion Hrun; subst.
  - destruct (unwrapUVs bt p) as [p1 [[uv|]|e]]; [| |discriminate].
    + eapply IH; [|exact Hrun].
      destruct (decide (bt = t)) as [->|Hne].
      * rewrite get_set_eq. eauto.
      * by rewrite get_set_ne.
    + by apply (IH _ _ _ _ Hacc Hrun).
Qed.

(** A counted type with a non-empty entry gets a UV attribute. *)
Lemma unwrapAll_nonempty_entry blockTypes e : forall acc p p' typeToUV,
  d !! t = Some e -> e <> [] ->
  this_schematic p = Some s ->
  In t blockTypes ->
  unwrapAll blockTypes acc p = (p', Return typeToUV) ->
  is_Some (JsMap.get t typeToUV).
Proof using Hdict.
  intros acc p p' typeToUV He Hne. revert acc p.
  induction blockTypes as [|bt rest IH]; intros acc p Hs Hin Hrun; [destruct Hin|].
  simpl in Hrun. pose proof (unwrapUVs_schematic bt p) as H1.
  destruct (decide (bt = t)) as [->|Hbt].
  - destruct (unwrapUVs_nonempty t p s d e) as [uv Huv]; try done.
    destruct (unwrapUVs t p) as [p1 c]; simpl in *; subst c.
    eapply unwrapAll_keeps; [|exact Hrun].
    rewrite get_set_eq. eauto.
  - destruct Hin as [?|Hin]; [done|].
    destruct (unwrapUVs bt p) as [p1 [[uv|]|err]]; simpl in *; [| |discriminate].
    + eapply (IH _ p1); [congruence | done | exact Hrun].
    + eapply (IH _ p1); [congruence | done | exact Hrun].
Qed.
End CreateLoops.

Lemma buildMeshes_without s typeToUV t blockTypes : forall im out,
  JsMap.get t typeToUV = None ->
  JsMap.get t im = None ->
  (forall m, In m out -> meshType m <> t) ->
  JsMap.get t (fst (buildMeshes s typeToUV blockTypes im out)) = None
  /\ forall m, In m (snd (buildMeshes s typeToUV blockTypes im out)) -> meshType m <> t.
Proof.
  intros im out Hno. revert im out.
  induction blockTypes as [|bt rest IH]; intros im out Him Hout; simpl; [done|].
  destruct (JsMap.get bt typeToUV) as [uv|] eqn:Huv; [|by apply IH].
  assert (bt <> t) by congruence.
  apply IH.
  - by rewrite get_set_ne.
  - intros m [Hm|Hm]%in_app_or; [by apply Hout|].
    destruct Hm as [<-|[]]. done.
Qed.

Lemma buildMeshes_keeps s typeToUV blockTypes : forall im out m,
  In m out -> In m (snd (buildMeshes s typeToUV blockTypes im out)).
Proof.
  induction blockTypes as [|bt rest IH]; intros im out m Hm; simpl; [done|].
  destruct (JsMap.get bt typeToUV); apply IH; [|done].
  apply in_or_app. by left.
Qed.

Lemma buildMeshes_with s typeToUV t uv blockTypes : forall im out,
  JsMap.get t typeToUV = Some uv ->
  In t blockTypes ->
  In (mkMesh t uv (countOf s t)) (snd (buildMeshes s typeToUV blockTypes im out)).
Proof.
  intros im out Huv. revert im out.
  induction blockTypes as [|bt rest IH]; intros im out Hin; [destruct Hin|].
  simpl. destruct (decide (bt = t)) as [->|Hne].
  - rewrite Huv. apply buildMeshes_keeps, in_or_app. right. by left.
  - destruct Hin as [?|Hin]; [done|].
    destruct (JsMap.get bt typeToUV); by apply IH.
Qed.

(** The scan writes matrices only for types that have a mesh. *)
Lemma scanCell_writes_without s im t x y z st :
  JsMap.get t im = None ->
  (forall w, In w (writes st) -> writeType w <> t) ->
  forall w, In w (writes (scanCell s im x y z st)) -> writeType w <> t.
Proof.
  intros Him Hst w. unfold scanCell.
  destruct (array_get (schematic s) (index st)) as [bt|]; [|by apply Hst].
  destruct (JsMap.get bt im) as [m|] eqn:Hm; [|by apply Hst].
  simpl. intros [Hw|Hw]%in_app_or; [by apply Hst|].
  destruct Hw as [<-|[]]. simpl. congruence.
Qed.

Lemma scan_writes_without s im t :
  JsMap.get t im = None ->
  forall w, In w (writes (scan s im)) -> writeType w <> t.
Proof.
  intros Him. unfold scan.
  apply (scanLoops_invariant (fun st => forall w, In w (writes st) -> writeType w <> t)).
  - intros x y z st. by apply scanCell_writes_without.
  - intros w [].
Qed.

(** An appended cell of type 0 puts the key 0 among the counted types;
    unless the dictionary has an entry for 0, [create] then stops with a
    [TypeError] on that key. *)
Lemma appended_air_cell_stops_create :
  schematic gridBlockAndAir = [Some 5; Some 0]
  /\ blockCounts gridBlockAndAir = [(5, Num 1); (0, NaN)]
  /\ snd (create gridBlockAndAir newPlacer) = Throw TypeError.
Proof. repeat split; vm_compute; reflexivity. Qed.

(** C8 as stated fails: after [create] on [gridAll] the placer holds a
    table for type 5; [create] on a grid that counts type 5 and whose
    dictionary has no entry for it then returns, and emits a batch for
    type 5 with the cached table. *)
Lemma create_missing_entry_served_from_cache :
  JsMap.get 5 (blockCounts gridNoEntry) = Some (Num 1)
  /\ textureDictionary gridNoEntry = Some ∅
  /\ (exists r0, create gridAll newPlacer = (placerAfterAll, Return r0))
  /\ exists r m,
       snd (create gridNoEntry placerAfterAll) = Return r
       /\ emitted r = [m]
       /\ meshType m = 5
       /\ uvCache placerAfterAll !! 5 = Some (meshUV m).
Proof.
  split; [reflexivity|]. split; [reflexivity|].
  split; [eexists; vm_compute; reflexivity|].
  eexists. eexists. split; [vm_compute; reflexivity|].
  split; [reflexivity|]. split; vm_compute; reflexivity.
Qed.

(** C8 (amended): let a block type be counted by the grid and have no
    cached table in the placer.  If the dictionary has no entry for the
    type, [create] throws (the [TypeError] of [Object.keys(undefined)],
    unless the atlas check already threw).  If the entry is the empty
    object, unwrapping the type returns nothing, without an error and
    without caching, and a [create] that returns has emitted no batch for
    the type and written no matrix for it.  If the entry is not empty, a
    [create] that returns has emitted a batch for the type. *)
Theorem create_entry_absent_empty_nonempty (s : UnpackedSchematic)
    (p : GeometryPlacer) (d : gmap Z FaceMapping) (t : Z) :
  JsMap.has t (blockCounts s) = true ->
  textureDictionary s = Some d ->
  uvCache p !! t = None ->
  (d !! t = None ->
     snd (create s p) = Throw TextureNotSet \/ snd (create s p) = Throw TypeError)
  /\ (d !! t = Some [] ->
        unwrapUVs t (mkPlacer (Some s) (uvCache p))
          = (mkPlacer (Some s) (uvCache p), Return None)
        /\ forall r, snd (create s p) = Return r ->
             (forall m, In m (emitted r) -> meshType m <> t)
             /\ (forall w, In w (matrixWrites r) -> writeType w <> t))
  /\ (forall e, d !! t = Some e -> e <> [] ->
        forall r, snd (create s p) = Return r ->
          exists m, In m (emitted r) /\ meshType m = t).
Proof.
  intros Hcounted Hd Hc.
  apply has_keys in Hcounted.
  split; [|split].
  - intros Hnone. unfold create.
    destruct (_ || _); [by left|]. right.
    destruct (unwrapAll_no_entry s d t Hd (JsMap.keys (blockCounts s)) JsMap.empty
                (mkPlacer (Some s) (uvCache p))) as [p' ->]; done.
  - intros Hempty. split; [by apply (unwrapUVs_empty _ _ s d)|].
    intros r. unfold create.
    destruct (_ || _); [discriminate|].
    destruct (unwrapAll _ _ _) as [p' [typeToUV|e]] eqn:Hall; [|discriminate].
    assert (Hno : JsMap.get t typeToUV = None).
    { eapply (unwrapAll_empty_entry s d t Hd); [exact Hempty | | | | exact Hall]; done. }
    pose proof (buildMeshes_without s typeToUV t (JsMap.keys (blockCounts s))
                  JsMap.empty [] Hno eq_refl) as Hb.
    destruct (buildMeshes _ _ _ _ _) as [im out]. simpl in *.
    destruct Hb as [Him Hout]; [intros m []|].
    intros [= <-]. simpl. split; [done|]. by apply scan_writes_without.
  - intros e He Hne r. unfold create.
    destruct (_ || _); [discriminate|].
    destruct (unwrapAll _ _ _) as [p' [typeToUV|err]] eqn:Hall; [|discriminate].
    assert (Huv : is_Some (JsMap.get t typeToUV)).
    { eapply (unwrapAll_nonempty_entry s d t Hd); [exact He | | | | exact Hall]; done. }
    destruct Huv as [uv Huv].
    pose proof (buildMeshes_with s typeToUV t uv (JsMap.keys (blockCounts s))
                  JsMap.empty [] Huv Hcounted) as Hb.
    destruct (buildMeshes _ _ _ _ _) as [im out]. simpl in *.
    intros [= <-]. simpl. eauto.
Qed.

Lemma create_entry_absent_empty_nonempty_witness :
  snd (create gridNoEntry newPlacer) = Throw TypeError
  /\ snd (create gridEmptyEntry newPlacer) = Return (mkPlaced [] [])
  /\ ((∅ : gmap Z FaceMapping) !! 5 = None ->
        snd (create gridNoEntry newPlacer) = Throw TextureNotSet
        \/ snd (create gridNoEntry newPlacer) = Throw TypeError).
Proof.
  split; [vm_compute; reflexivity|]. split; [vm_compute; reflexivity|].
  apply (create_entry_absent_empty_nonempty gridNoEntry newPlacer ∅ 5); reflexivity.
Defined.

(* ===================================================================== *)
(** ** The order of the scan *)

Lemma forRange_fold {S : Type} (n : Z) (body : Z -> S -> S) (s : S) :
  forRange n body s = fold_left (fun s x => body x s) (range n) s.
Proof.
  unfold forRange, forNat, range. generalize (seq 0 (Z.to_nat n)). intros l.
  revert s. induction l as [|i l IH]; intros s; simpl; [done | apply IH].
Qed.

Lemma fold_left_flat_map {S A B : Type} (f : S -> B -> S) (g : A -> list B)
    (l : list A) (s : S) :
  fold_left f (flat_map g l) s = fold_left (fun s a => fold_left f (g a) s) l s.
Proof.
  revert s. induction l as [|a l IH]; intros s; simpl; [done|].
  by rewrite fold_left_app, IH.
Qed.

Lemma fold_left_ext_all {S A : Type} (f g : S -> A -> S) (l : list A) (s : S) :
  (forall s a, f s a = g s a) -> fold_left f l s = fold_left g l s.
Proof.
  intros H. revert s. induction l as [|a l IH]; intros s; simpl; [done|].
  by rewrite H, IH.
Qed.

Lemma fold_left_snoc {A : Type} (l acc : list A) :
  fold_left (fun acc c => acc ++ [c]) l acc = acc ++ l.
Proof.
  revert acc. induction l as [|a l IH]; intros acc; simpl.
  - by rewrite app_nil_r.
  - by rewrite IH, <- app_assoc.
Qed.

(** The three nested loops visit the coordinates of [scanOrder], one after
    the other. *)
Lemma scanLoops_fold {S : Type} (s : UnpackedSchematic)
    (body : Z -> Z -> Z -> S -> S) (st : S) :
  scanLoops s body st =
    fold_left (fun st c => body c.1.1 c.1.2 c.2 st)
      (flat_map (fun x => flat_map (fun y => map (fun z => (x, y, z)) (range (sizeZ s)))
                            (range (sizeY s)))
         (range (sizeX s))) st.
Proof.
  unfold scanLoops. rewrite forRange_fold, fold_left_flat_map.
  apply fold_left_ext_all. intros st1 x.
  rewrite forRange_fold, fold_left_flat_map.
  apply fold_left_ext_all. intros st2 y.
  rewrite forRange_fold. generalize (range (sizeZ s)). intros l. revert st2.
  induction l as [|z l IH]; intros st2; simpl; [done | apply IH].
Qed.

Lemma scanOrder_eq (s : UnpackedSchematic) :
  scanOrder s =
    flat_map (fun x => flat_map (fun y => map (fun z => (x, y, z)) (range (sizeZ s)))
                         (range (sizeY s)))
      (range (sizeX s)).
Proof.
  unfold scanOrder. rewrite scanLoops_fold.
  rewrite (fold_left_ext_all _ (fun acc c => acc ++ [c])).
  - by rewrite fold_left_snoc.
  - by intros acc [[x y] z].
Qed.

Lemma scan_fold (s : UnpackedSchematic) (im : JsMap.t InstancedMesh) :
  scan s im =
    fold_left (fun st c => scanCell s im c.1.1 c.1.2 c.2 st) (scanOrder s)
      (mkScan 0 JsMap.empty []).
Proof. unfold scan. by rewrite scanLoops_fold, scanOrder_eq. Qed.

Lemma scanCell_index s im x y z st : index (scanCell s im x y z st) = index st + 1.
Proof.
  unfold scanCell.
  destruct (array_get (schematic s) (index st)) as [bt|]; [|done].
  by destruct (JsMap.get bt im).
Qed.

(** Before the cell at position [k] of the order is handled, the flat
    index is [k]. *)
Lemma scan_prefix_index s im (cells : list (Z * Z * Z)) : forall st,
  index (fold_left (fun st c => scanCell s im c.1.1 c.1.2 c.2 st) cells st)
  = index st + Z.of_nat (length cells).
Proof.
  induction cells as [|c cells IH]; intros st; simpl; [lia|].
  rewrite IH, scanCell_index. lia.
Qed.

Lemma range_lookup (n : Z) (i : Z) :
  0 <= i < n -> range n !! Z.to_nat i = Some i.
Proof.
  intros H. unfold range. rewrite list_lookup_fmap, lookup_seq_lt by lia.
  simpl. f_equal. lia.
Qed.

Lemma range_length (n : Z) : length (range n) = Z.to_nat n.
Proof. unfold range. by rewrite length_map, length_seq. Qed.

Lemma flat_map_uniform_length {A B : Type} (f : A -> list B) (l : list A) (k : nat) :
  (forall a, length (f a) = k) -> length (flat_map f l) = (length l * k)%nat.
Proof.
  intros H. induction l as [|a l IH]; simpl; [done|].
  rewrite length_app, H, IH. lia.
Qed.

Lemma flat_map_uniform_lookup {A B : Type} (f : A -> list B) (k : nat) (l : list A) :
  (forall a, length (f a) = k) ->
  forall i j a, l !! i = Some a -> (j < k)%nat ->
  flat_map f l !! (i * k + j)%nat = f a !! j.
Proof.
  intros H. induction l as [|a0 l IH]; intros i j a Hi Hj; [done|].
  simpl. destruct i as [|i]; simpl in *.
  - inversion Hi; subst. rewrite lookup_app_l by (rewrite H; lia). done.
  - rewrite lookup_app_r by (rewrite H; lia). rewrite H.
    replace (k + i * k + j - k)%nat with (i * k + j)%nat by lia.
    by apply IH.
Qed.

(** The scan is x-major: the loops reach the coordinates [(x, y, z)] of the
    grid as their [x*sizeY*sizeZ + y*sizeZ + z]-th cell, and that is the
    flat index they read there. *)
Lemma scanOrder_lookup (s : UnpackedSchematic) (x y z : Z) :
  0 <= x < sizeX s -> 0 <= y < sizeY s -> 0 <= z < sizeZ s ->
  scanOrder s !! Z.to_nat (scanIndexAt s x y z) = Some (x, y, z).
Proof.
  intros Hx Hy Hz. rewrite scanOrder_eq. unfold scanIndexAt.
  set (row := fun a b : Z => map (fun c : Z => (a, b, c)) (range (sizeZ s))).
  set (plane := fun a : Z => flat_map (row a) (range (sizeY s))).
  assert (Hrow : forall x y, length (row x y) = Z.to_nat (sizeZ s)).
  { intros. unfold row. by rewrite length_map, range_length. }
  assert (Hplane : forall x, length (plane x) = (Z.to_nat (sizeY s) * Z.to_nat (sizeZ s))%nat).
  { intros. unfold plane.
    rewrite (flat_map_uniform_length _ _ (Z.to_nat (sizeZ s))) by apply Hrow.
    by rewrite range_length. }
  replace (Z.to_nat (x * (sizeY s * sizeZ s) + y * sizeZ s + z))
    with (Z.to_nat x * (Z.to_nat (sizeY s) * Z.to_nat (sizeZ s))
          + (Z.to_nat y * Z.to_nat (sizeZ s) + Z.to_nat z))%nat by nia.
  rewrite (flat_map_uniform_lookup plane _ _ Hplane _ _ x (range_lookup _ _ Hx)) by nia.
  unfold plane.
  rewrite (flat_map_uniform_lookup (row x) _ _ (Hrow x) _ _ y (range_lookup _ _ Hy)) by lia.
  unfold row. rewrite list_lookup_fmap, range_lookup by done. done.
Qed.

(** When the loops stand at the in-bounds coordinates [(x, y, z)], the
    cells handled so far have left the flat index at [scanIndexAt]. *)
Lemma scan_index_at_coordinates (s : UnpackedSchematic)
    (im : JsMap.t InstancedMesh) (x y z : Z) :
  0 <= x < sizeX s -> 0 <= y < sizeY s -> 0 <= z < sizeZ s ->
  exists before after,
    scanOrder s = before ++ (x, y, z) :: after
    /\ index (fold_left (fun st c => scanCell s im c.1.1 c.1.2 c.2 st) before
                (mkScan 0 JsMap.empty []))
       = scanIndexAt s x y z.
Proof.
  intros Hx Hy Hz.
  pose proof (scanOrder_lookup s x y z Hx Hy Hz) as Hl.
  exists (take (Z.to_nat (scanIndexAt s x y z)) (scanOrder s)),
         (drop (S (Z.to_nat (scanIndexAt s x y z))) (scanOrder s)).
  split; [symmetry; by apply take_drop_middle|].
  rewrite scan_prefix_index. simpl.
  apply lookup_lt_Some in Hl. rewrite length_take.
  assert (0 <= scanIndexAt s x y z).
  { unfold scanIndexAt.
    assert (0 <= sizeY s * sizeZ s) by (apply Z.mul_nonneg_nonneg; lia).
    assert (0 <= x * (sizeY s * sizeZ s)) by (apply Z.mul_nonneg_nonneg; lia).
    assert (0 <= y * sizeZ s) by (apply Z.mul_nonneg_nonneg; lia).
    lia. }
  lia.
Qed.

(** C1 (the code departs from the claim): the scan and the cell writes
    disagree on the layout of the flat array.  In a 2 x 2 x 1 grid
    [setBlock(5, 1, 0, 0)] writes flat index 1 + 0*2 + 0*2*2 = 1; the scan
    reaches the loop coordinates (1, 0, 0) at flat index 1*2*1 = 2 and
    reads flat index 1 at the loop coordinates (0, 1, 0): the block gets a
    translation-only matrix with position (0, 1, 0). *)
Theorem scan_index_differs_from_location :
  getSchematicLocation gridTransposed 1 0 0 = 1
  /\ scanIndexAt gridTransposed 1 0 0 = 2
  /\ schematic gridTransposed = [None; Some 5]
  /\ scanOrder gridTransposed = [(0, 0, 0); (0, 1, 0); (1, 0, 0); (1, 1, 0)]
  /\ exists r w,
       snd (create gridTransposed newPlacer) = Return r
       /\ matrixWrites r = [w]
       /\ writeType w = 5
       /\ writeSlot w = 0
       /\ translationOnly (writeMatrix w) = true
       /\ matrixPosition (writeMatrix w) = Some (0, 1, 0).
Proof.
  repeat split; try (vm_compute; reflexivity).
  eexists. eexists. split; [vm_compute; reflexivity|].
  repeat split.
Qed.

(* ===================================================================== *)
(** ** Cells and counts *)

Lemma cellsHolding_nonneg t a : 0 <= cellsHolding t a.
Proof. unfold cellsHolding. lia. Qed.

Lemma cellsHolding_app t a b :
  cellsHolding t (a ++ b) = cellsHolding t a + cellsHolding t b.
Proof. unfold cellsHolding. rewrite List.filter_app, length_app. lia. Qed.

Lemma cellsHolding_cons t c a :
  cellsHolding t (c :: a) = (if bool_decide (c = Some t) then 1 else 0) + cellsHolding t a.
Proof. unfold cellsHolding. simpl. destruct (bool_decide _); simpl length; lia. Qed.

Lemma cellsHolding_holes t n : cellsHolding t (replicate n None) = 0.
Proof.
  induction n as [|n IH]; [done|].
  simpl. rewrite cellsHolding_cons, IH. by rewrite bool_decide_eq_false_2.
Qed.

Lemma cellsHolding_single t v :
  cellsHolding t [Some v] = (if v =? t then 1 else 0).
Proof.
  rewrite cellsHolding_cons. unfold cellsHolding. simpl.
  destruct (v =? t) eqn:E.
  - apply Z.eqb_eq in E. subst. by rewrite bool_decide_eq_true_2.
  - apply Z.eqb_neq in E. rewrite bool_decide_eq_false_2 by congruence. done.
Qed.

Lemma cellsHolding_insert t v (a : list (option Z)) : forall n,
  cellsHolding t (<[n := Some v]> a) <= cellsHolding t a + (if v =? t then 1 else 0).
Proof.
  induction a as [|c a IH]; intros n; simpl.
  - destruct (v =? t); unfold cellsHolding; simpl; lia.
  - destruct n as [|n]; simpl.
    + change (Some v :: a) with ([Some v] ++ a).
      rewrite cellsHolding_app, cellsHolding_single, cellsHolding_cons.
      pose proof (cellsHolding_nonneg t a). destruct (bool_decide _); lia.
    + rewrite !cellsHolding_cons. specialize (IH n). lia.
Qed.

Lemma cellsHolding_assign t v a i :
  cellsHolding t (array_assign a i v) <= cellsHolding t a + (if v =? t then 1 else 0).
Proof.
  unfold array_assign. destruct (i <? 0).
  - destruct (v =? t); lia.
  - destruct (_ <? _)%nat.
    + apply cellsHolding_insert.
    + rewrite !cellsHolding_app, cellsHolding_holes, cellsHolding_single. lia.
Qed.

Lemma cellsHolding_take_S t (a : list (option Z)) n :
  cellsHolding t (take (S n) a)
  = cellsHolding t (take n a) + (if bool_decide (a !! n = Some (Some t)) then 1 else 0).
Proof.
  destruct (a !! n) as [c|] eqn:E.
  - rewrite (take_S_r a n c E), cellsHolding_app.
    change [c] with (c :: []). rewrite cellsHolding_cons.
    unfold cellsHolding at 3. simpl.
    destruct (decide (c = Some t)) as [->|Hne].
    + by rewrite !bool_decide_eq_true_2.
    + rewrite !bool_decide_eq_false_2 by congruence. done.
  - apply lookup_ge_None in E.
    rewrite !take_ge by lia. rewrite bool_decide_eq_false_2 by congruence. lia.
Qed.

Lemma cellsHolding_take_le t (a : list (option Z)) n :
  cellsHolding t (take n a) <= cellsHolding t a.
Proof.
  rewrite <- (take_drop n a) at 2. rewrite cellsHolding_app.
  pose proof (cellsHolding_nonneg t (drop n a)). lia.
Qed.

(** The counting prologue keeps pace with any write of one cell. *)
Lemma countCoversCells_step t type s a' :
  t <> 0 ->
  countCoversCells t s ->
  cellsHolding t a' <= cellsHolding t (schematic s) + (if type =? t then 1 else 0) ->
  countCoversCells t
    (with_schematic (with_blockCounts s (counted type (blockCounts s))) a').
Proof.
  intros Ht Hinv Hcells. unfold countCoversCells in *. simpl.
  pose proof (cellsHolding_nonneg t a') as Hnn.
  destruct (type =? t) eqn:E.
  - apply Z.eqb_eq in E. subst type. rewrite counted_same by done.
    destruct (JsMap.get t (blockCounts s)) as [[c|]|]; simpl; [lia | done | lia].
  - apply Z.eqb_neq in E. rewrite counted_other by done.
    destruct (JsMap.get t (blockCounts s)) as [[c|]|]; simpl; [lia | done | lia].
Qed.

Lemma with_schematic_same s : with_schematic s (schematic s) = s.
Proof. by destruct s. Qed.

(** On every grid a caller can build, the count of a non-zero type is an
    integer at least as large as the number of cells that hold the type. *)
Lemma reachable_countCoversCells s t :
  reachable s -> t <> 0 -> countCoversCells t s.
Proof.
  intros Hreach Ht. induction Hreach as [sx sy sz|type x y z g Hg IH|type g Hg IH|tex n d g Hg IH].
  - reflexivity.
  - unfold setBlock. cbn zeta. destruct (_ || _); cbn [fst].
    + rewrite <- (with_schematic_same (with_blockCounts g _)).
      apply countCoversCells_step; [done | done |]. simpl.
      destruct (type =? t); lia.
    + apply countCoversCells_step; [done | done |]. simpl.
      apply cellsHolding_assign.
  - unfold pushBlock. cbn zeta. destruct (_ >? _); cbn [fst].
    + rewrite <- (with_schematic_same (with_blockCounts g _)).
      apply countCoversCells_step; [done | done |]. simpl.
      destruct (type =? t); lia.
    + apply countCoversCells_step; [done | done |]. simpl. unfold array_push.
      rewrite cellsHolding_app, cellsHolding_single. lia.
  - exact IH.
Qed.

(* ===================================================================== *)
(** ** Slots *)

Section ScanSlots.
Variables (s : UnpackedSchematic) (im : JsMap.t InstancedMesh).

Lemma scanCell_slotsFollowCells x y z st :
  slotsFollowCells s st -> slotsFollowCells s (scanCell s im x y z st).
Proof.
  intros (Hidx & Hslots & Hwrites).
  assert (Hnext : Z.to_nat (index st + 1) = S (Z.to_nat (index st))) by lia.
  assert (Hmono : forall t,
    cellsHolding t (take (Z.to_nat (index st)) (schematic s))
    <= cellsHolding t (take (Z.to_nat (index st + 1)) (schematic s))).
  { intros t. rewrite Hnext, cellsHolding_take_S. destruct (bool_decide _); lia. }
  unfold scanCell.
  destruct (array_get (schematic s) (index st)) as [bt|] eqn:Hcell.
  2:{ split; [simpl; lia|]. split; simpl.
      - intros t. specialize (Hslots t). specialize (Hmono t).
        unfold nextSlot in *. simpl. lia.
      - intros w Hw. specialize (Hwrites w Hw). unfold nextSlot in *. simpl. lia. }
  destruct (JsMap.get bt im) as [mesh|].
  2:{ split; [simpl; lia|]. split; simpl.
      - intros t. specialize (Hslots t). specialize (Hmono t).
        unfold nextSlot in *. simpl. lia.
      - intros w Hw. specialize (Hwrites w Hw). unfold nextSlot in *. simpl. lia. }
  assert (Hread : schematic s !! Z.to_nat (index st) = Some (Some bt)).
  { unfold array_get in Hcell. destruct (index st <? 0); [discriminate|].
    destruct (schematic s !! Z.to_nat (index st)) as [[c|]|]; simpl in Hcell; congruence. }
  assert (Hslot : forall t,
    nextSlot t (mkScan (index st + 1)
                  (JsMap.set bt (nextSlot bt st + 1) (blockIndexes st))
                  (writes st ++ [mkWrite bt (nextSlot bt st) (updateMatrix x y z)]))
    = nextSlot t st + (if bt =? t then 1 else 0)).
  { intros t. unfold nextSlot. simpl. destruct (bt =? t) eqn:E.
    - apply Z.eqb_eq in E. subst. by rewrite get_set_eq.
    - apply Z.eqb_neq in E. rewrite get_set_ne by done. lia. }
  fold (nextSlot bt st).
  split; [simpl; lia|]. split.
  - intros t. rewrite Hslot. cbn [index]. specialize (Hslots t).
    rewrite Hnext, cellsHolding_take_S. destruct (bt =? t) eqn:E.
    + apply Z.eqb_eq in E. subst. rewrite bool_decide_eq_true_2 by done. lia.
    + destruct (bool_decide _); lia.
  - intros w. cbn [writes]. intros [Hw|Hw]%in_app_or.
    + specialize (Hwrites w Hw). rewrite Hslot. destruct (bt =? writeType w); lia.
    + destruct Hw as [<-|[]]. cbn [writeSlot writeType]. rewrite Hslot, Z.eqb_refl.
      specialize (Hslots bt). lia.
Qed.

Lemma scan_slotsFollowCells : slotsFollowCells s (scan s im).
Proof.
  unfold scan. apply scanLoops_invariant.
  - intros x y z st. apply scanCell_slotsFollowCells.
  - split; [simpl; lia|]. split.
    + intros t. unfold nextSlot. simpl. unfold cellsHolding. simpl. lia.
    + intros w [].
Qed.

(** Every matrix the scan writes for a type goes to a slot below the
    number of cells that hold the type. *)
Lemma scan_slot_below_cells w :
  In w (writes (scan s im)) ->
  0 <= writeSlot w < cellsHolding (writeType w) (schematic s).
Proof.
  intros Hw. destruct scan_slotsFollowCells as (_ & Hslots & Hwrites).
  specialize (Hwrites w Hw). specialize (Hslots (writeType w)).
  pose proof (cellsHolding_take_le (writeType w) (schematic s)
                (Z.to_nat (index (scan s im)))).
  lia.
Qed.
End ScanSlots.

Lemma buildMeshes_get s typeToUV t blockTypes : forall im out m,
  JsMap.get t (fst (buildMeshes s typeToUV blockTypes im out)) = Some m ->
  JsMap.get t im = Some m
  \/ (In m (snd (buildMeshes s typeToUV blockTypes im out))
      /\ meshType m = t /\ meshCount m = countOf s t).
Proof.
  induction blockTypes as [|bt rest IH]; intros im out m Hget; simpl in *; [by left|].
  destruct (JsMap.get bt typeToUV) as [uv|]; [|by apply IH].
  destruct (IH _ _ _ Hget) as [Him|Hout]; [|by right].
  destruct (decide (bt = t)) as [->|Hne].
  - rewrite get_set_eq in Him. inversion Him; subst m. right.
    split; [|done]. apply buildMeshes_keeps, in_or_app. right. by left.
  - rewrite get_set_ne in Him by done. by left.
Qed.

(** On a grid a caller can build, every matrix written for a non-zero
    block type goes to a slot of a batch that was emitted for that type,
    below the batch's instance count. *)
Lemma create_slots_below_count (s : UnpackedSchematic) (p : GeometryPlacer)
    (r : Placed) (w : MatrixWrite) :
  reachable s ->
  snd (create s p) = Return r ->
  In w (matrixWrites r) ->
  writeType w <> 0 ->
  exists m c,
    In m (emitted r) /\ meshType m = writeType w /\ meshCount m = Num c
    /\ cellsHolding (writeType w) (schematic s) <= c
    /\ 0 <= writeSlot w
    /\ lt_count (writeSlot w) (meshCount m) = true.
Proof.
  intros Hreach Hcreate Hw Ht. unfold create in Hcreate.
  destruct (_ || _); [discriminate|].
  destruct (unwrapAll _ _ _) as [p' [typeToUV|e]]; [|discriminate].
  pose proof (buildMeshes_get s typeToUV (writeType w) (JsMap.keys (blockCounts s))
                JsMap.empty []) as Hget.
  destruct (buildMeshes _ _ _ _ _) as [im out]. simpl in *.
  inversion Hcreate; subst r; clear Hcreate. simpl in *.
  pose proof (scan_slot_below_cells s im w Hw) as Hslot.
  destruct (JsMap.get (writeType w) im) as [m|] eqn:Him.
  2:{ by destruct (scan_writes_without s im (writeType w) Him w Hw). }
  destruct (Hget m eq_refl) as [Hold|(Hin & Hty & Hcount)]; [discriminate|].
  pose proof (reachable_countCoversCells s (writeType w) Hreach Ht) as Hinv.
  unfold countCoversCells in Hinv. unfold countOf in Hcount.
  destruct (JsMap.get (writeType w) (blockCounts s)) as [[c|]|]; [|done|lia].
  exists m, c. rewrite Hcount. simpl.
  repeat split; first [done | lia | apply Z.ltb_lt; lia].
Qed.

(** C9 (the code departs from the claim): a write of type 0 leaves the
    count [NaN] for type 0 (the defect of C2).  When the dictionary maps
    type 0, a batch is emitted for it with instance count [NaN], and the
    scan writes the matrix of the cell that holds 0 to slot 0 of that
    batch: slot 0 is not below the instance count. *)
Theorem type_zero_batch_is_written_past_its_count :
  reachable gridAir
  /\ cellsHolding 0 (schematic gridAir) = 1
  /\ JsMap.get 0 (blockCounts gridAir) = Some NaN
  /\ exists r m w,
       snd (create gridAir newPlacer) = Return r
       /\ emitted r = [m]
       /\ meshType m = 0
       /\ meshCount m = NaN
       /\ matrixWrites r = [w]
       /\ writeType w = 0
       /\ writeSlot w = 0
       /\ lt_count (writeSlot w) (meshCount m) = false.
Proof.
  split; [repeat constructor|]. split; [reflexivity|]. split; [reflexivity|].
  eexists. eexists. eexists. split; [vm_compute; reflexivity|].
  split; [reflexivity|]. split; [reflexivity|]. split; [reflexivity|].
  split; [reflexivity|]. repeat split.
Qed.

(* ===================================================================== *)
(** ** More on the grid: bounds, read-back, order *)



Lemma array_assign_length a i v :
  0 <= i ->
  Z.of_nat (length (array_assign a i v)) = Z.max (Z.of_nat (length a)) (i + 1).
Proof.
  intros Hi. unfold array_assign.
  destruct (i <? 0) eqn:E; [apply Z.ltb_lt in E; lia|].
  destruct (Z.to_nat i <? length a)%nat eqn:El.
  - apply Nat.ltb_lt in El. rewrite length_insert. lia.
  - apply Nat.ltb_ge in El. rewrite !length_app, length_replicate. simpl. lia.
Qed.

Lemma setBlock_inBounds_dec x y z g :
  ((x <? 0) || (x >=? sizeX g) || (y <? 0) || (y >=? sizeY g)
     || (z <? 0) || (z >=? sizeZ g)) = false <-> inBounds g x y z.
Proof.
  unfold inBounds. rewrite !orb_false_iff, !Z.ltb_ge, !Z.geb_leb, !Z.leb_gt. lia.
Qed.

Lemma setBlock_inBounds t x y z g :
  inBounds g x y z ->
  setBlock t x y z g =
    (with_schematic (with_blockCounts g (counted t (blockCounts g)))
       (array_assign (schematic g) (getSchematicLocation g x y z) t),
     Return tt).
Proof.
  intros H. apply setBlock_inBounds_dec in H.
  unfold setBlock. cbn zeta. simpl sizeX. simpl sizeY. simpl sizeZ.
  by rewrite H.
Qed.

Lemma setBlock_outOfBounds t x y z g :
  ~ inBounds g x y z ->
  setBlock t x y z g =
    (with_blockCounts g (counted t (blockCounts g)), Throw OutOfBounds).
Proof.
  intros H. unfold setBlock. cbn zeta. simpl sizeX. simpl sizeY. simpl sizeZ.
  destruct (_ || _) eqn:E; [done|].
  by apply setBlock_inBounds_dec in E.
Qed.

Lemma inBounds_dec g x y z : inBounds g x y z \/ ~ inBounds g x y z.
Proof. unfold inBounds. lia. Qed.

(** X1: [setBlock] returns exactly when the three coordinates are inside
    the grid and throws "Block is out of bounds!" exactly when one is not;
    a throwing call leaves the array, the dimensions and the atlas fields
    alone but has already counted its type. *)
Theorem setBlock_bounds_check (t x y z : Z) (g : UnpackedSchematic) :
  (snd (setBlock t x y z g) = Return tt <-> inBounds g x y z)
  /\ (snd (setBlock t x y z g) = Throw OutOfBounds <-> ~ inBounds g x y z)
  /\ (~ inBounds g x y z ->
        fst (setBlock t x y z g) = with_blockCounts g (counted t (blockCounts g))).
Proof.
  destruct (inBounds_dec g x y z) as [H|H].
  - rewrite (setBlock_inBounds t x y z g H). simpl.
    split; [split; auto|]. split; [split; [discriminate | contradiction]|].
    intros Hn. contradiction.
  - rewrite (setBlock_outOfBounds t x y z g H). simpl.
    split; [split; [discriminate | contradiction]|]. split; [split; auto|].
    reflexivity.
Qed.

(** The flat index of a cell inside the grid is inside the capacity. *)
Lemma getSchematicLocation_range g x y z :
  inBounds g x y z -> 0 <= getSchematicLocation g x y z < capacity g.
Proof.
  unfold inBounds, getSchematicLocation, capacity. intros (Hx & Hy & Hz).
  assert (0 <= y * sizeX g) by (apply Z.mul_nonneg_nonneg; lia).
  assert (0 <= z * sizeX g * sizeY g)
    by (apply Z.mul_nonneg_nonneg; [apply Z.mul_nonneg_nonneg|]; lia).
  split; [lia|].
  assert (x + y * sizeX g + 1 <= sizeX g * sizeY g) by nia.
  assert ((z + 1) * (sizeX g * sizeY g) <= sizeZ g * (sizeX g * sizeY g))
    by (apply Z.mul_le_mono_nonneg_r; nia).
  nia.
Qed.





(* ===================================================================== *)
(** ** More on the grid: appends, key order, invariants *)

Lemma pushBlock_Return t g :
  snd (pushBlock t g) = Return tt ->
  fst (pushBlock t g) =
    with_schematic (with_blockCounts g (counted t (blockCounts g)))
      (schematic g ++ [Some t]).
Proof. unfold pushBlock. cbn zeta. by destruct (_ >? _). Qed.

Lemma array_get_lookup (a : list (option Z)) (k : nat) (t : Z) :
  a !! k = Some (Some t) -> array_get a (Z.of_nat k) = Some t.
Proof.
  intros H. unfold array_get.
  destruct (Z.of_nat k <? 0) eqn:E; [apply Z.ltb_lt in E; lia|].
  by rewrite Nat2Z.id, H.
Qed.

Lemma pushes_extend types : forall g g',
  runOps (map PushBlock types) g = (g', Return tt) ->
  schematic g' = schematic g ++ map Some types.
Proof.
  induction types as [|t types IH]; intros g g' Hrun; simpl in Hrun.
  - inversion Hrun; subst. by rewrite app_nil_r.
  - pose proof (pushBlock_Return t g) as Hp.
    destruct (pushBlock t g) as [g1 [[]|e]]; [|discriminate].
    simpl in Hp. rewrite (IH g1 g' Hrun), Hp by done. simpl.
    by rewrite <- app_assoc.
Qed.

(** X4: appends keep their order.  After a run of [pushBlock] calls that
    all returned, the array is the old array followed by the appended types
    in call order: the k-th appended type sits at flat index
    [old length + k]. *)
Theorem pushBlock_keeps_call_order (types : list Z) (g g' : UnpackedSchematic) :
  runOps (map PushBlock types) g = (g', Return tt) ->
  schematic g' = schematic g ++ map Some types
  /\ forall (k : nat) (t : Z), types !! k = Some t ->
       array_get (schematic g') (Z.of_nat (length (schematic g) + k)) = Some t.
Proof.
  intros Hrun. pose proof (pushes_extend types g g' Hrun) as Hs.
  split; [done|]. intros k t Hk. apply array_get_lookup. rewrite Hs.
  rewrite lookup_app_r by lia.
  replace (length (schematic g) + k - length (schematic g))%nat with k by lia.
  by rewrite list_lookup_fmap, Hk.
Qed.

Lemma pushBlock_keeps_call_order_witness :
  schematic (fst (runOps (map PushBlock [4; 0; 9]) (newSchematic 3 1 1)))
    = schematic (newSchematic 3 1 1) ++ map Some [4; 0; 9]
  /\ forall (k : nat) (t : Z), [4; 0; 9] !! k = Some t ->
       array_get (schematic (fst (runOps (map PushBlock [4; 0; 9]) (newSchematic 3 1 1))))
         (Z.of_nat (length (schematic (newSchematic 3 1 1)) + k)) = Some t.
Proof.
  apply (pushBlock_keeps_call_order [4; 0; 9] (newSchematic 3 1 1)
           (fst (runOps (map PushBlock [4; 0; 9]) (newSchematic 3 1 1)))).
  reflexivity.
Defined.

(** The counting prologue keeps the place of a type that has an entry and
    puts a new type last. *)
Lemma keys_counted t bc :
  JsMap.keys (counted t bc) =
    if JsMap.has t bc then JsMap.keys bc else JsMap.keys bc ++ [t].
Proof.
  unfold counted. destruct (JsMap.has t bc) eqn:Hhas; simpl.
  - by apply keys_set_present.
  - destruct (t =? 0); simpl.
    + by apply keys_set_absent.
    + rewrite keys_set_present.
      * by apply keys_set_absent.
      * apply has_get. rewrite get_set_eq. eauto.
Qed.

Lemma has_elem_of {V} t (m : JsMap.t V) :
  JsMap.has t m = bool_decide (t ∈ JsMap.keys m).
Proof.
  destruct (JsMap.has t m) eqn:E; symmetry.
  - apply bool_decide_eq_true_2, list_elem_of_In. by apply has_keys.
  - apply bool_decide_eq_false_2. intros Hin%list_elem_of_In%has_keys. congruence.
Qed.

Lemma runOps_keys ops : forall g g',
  runOps ops g = (g', Return tt) ->
  JsMap.keys (blockCounts g') =
    fold_left (fun acc t => if bool_decide (t ∈ acc) then acc else acc ++ [t])
      (map opType ops) (JsMap.keys (blockCounts g)).
Proof.
  induction ops as [|o ops IH]; intros g g' Hrun; simpl in Hrun.
  - by inversion Hrun; subst.
  - pose proof (applyOp_counts o g) as Hc.
    destruct (applyOp o g) as [g1 [[]|e]]; [|discriminate].
    simpl in Hc. rewrite (IH g1 g' Hrun), Hc, keys_counted, has_elem_of. done.
Qed.

(** X5: the occurrence-count map iterates its block types in the order in
    which they were first written, type 0 included: after a run of cell
    writes on a new grid that all returned, its keys are the types of the
    calls in order of first occurrence. *)
Theorem blockCounts_keys_first_seen (sx sy sz : Z) (ops : list CellOp)
    (g : UnpackedSchematic) :
  runOps ops (newSchematic sx sy sz) = (g, Return tt) ->
  JsMap.keys (blockCounts g) = firstSeen (map opType ops).
Proof. intros Hrun. by rewrite (runOps_keys ops _ g Hrun). Qed.

Lemma blockCounts_keys_first_seen_witness :
  JsMap.keys (blockCounts gridOverwritten) = firstSeen (map opType opsOverwrite)
  /\ firstSeen (map opType opsOverwrite) = [5; 7].
Proof.
  split; [|reflexivity].
  apply (blockCounts_keys_first_seen 2 1 1 opsOverwrite gridOverwritten).
  vm_compute. reflexivity.
Defined.

Lemma keys_counted_NoDup t bc :
  NoDup (JsMap.keys bc) -> NoDup (JsMap.keys (counted t bc)).
Proof.
  intros Hnd. rewrite keys_counted, has_elem_of.
  destruct (bool_decide (t ∈ JsMap.keys bc)) eqn:E; [done|].
  apply bool_decide_eq_false_1 in E.
  apply NoDup_app. split; [done|]. split.
  - intros x Hx Hin. apply list_elem_of_singleton in Hin. by subst.
  - apply NoDup_singleton.
Qed.

Lemma reachable_sizes_step_setBlock t x y z g :
  sizeX (fst (setBlock t x y z g)) = sizeX g
  /\ sizeY (fst (setBlock t x y z g)) = sizeY g
  /\ sizeZ (fst (setBlock t x y z g)) = sizeZ g.
Proof. unfold setBlock. cbn zeta. by destruct (_ || _). Qed.

Lemma reachable_sizes_step_pushBlock t g :
  sizeX (fst (pushBlock t g)) = sizeX g
  /\ sizeY (fst (pushBlock t g)) = sizeY g
  /\ sizeZ (fst (pushBlock t g)) = sizeZ g.
Proof. unfold pushBlock. cbn zeta. by destruct (_ >? _). Qed.

(** X6: on every grid built through the public methods, throwing calls
    included, no block type occurs twice among the keys of the
    occurrence-count map, and the flat array holds at most
    [sizeX*sizeY*sizeZ + 1] elements (none when that bound is negative). *)
Theorem reachable_keys_and_length (s : UnpackedSchematic) :
  reachable s ->
  NoDup (JsMap.keys (blockCounts s))
  /\ Z.of_nat (length (schematic s)) <= Z.max 0 (capacity s + 1).
Proof.
  intros Hreach.
  induction Hreach as [sx sy sz|t x y z g Hg [IHk IHl]|t g Hg [IHk IHl]|tex n d g Hg IH].
  - split; [constructor | simpl; lia].
  - split; [rewrite setBlock_counts; by apply keys_counted_NoDup|].
    destruct (inBounds_dec g x y z) as [H|H].
    + pose proof (getSchematicLocation_range g x y z H) as Hr.
      rewrite (setBlock_inBounds t x y z g H). unfold capacity in *. simpl.
      rewrite array_assign_length by lia. lia.
    + rewrite (setBlock_outOfBounds t x y z g H). unfold capacity in *. simpl. done.
  - split; [rewrite pushBlock_counts; by apply keys_counted_NoDup|].
    unfold pushBlock. cbn zeta. unfold capacity in *.
    destruct (_ >? _) eqn:E; simpl; [done|].
    assert (~ Z.of_nat (length (schematic g)) > sizeX g * sizeY g * sizeZ g).
    { intros Hgt. apply Z.gtb_gt in Hgt. simpl in E. congruence. }
    unfold array_push. rewrite length_app. simpl. lia.
  - exact IH.
Qed.

Lemma reachable_keys_and_length_witness :
  NoDup (JsMap.keys (blockCounts gridFull))
  /\ Z.of_nat (length (schematic gridFull)) <= Z.max 0 (capacity gridFull + 1).
Proof. apply (reachable_keys_and_length gridFull). repeat constructor. Defined.

(** X7: on every grid built through the public methods, the count of a
    non-zero block type is an integer (never [NaN]) that is at least the
    number of cells holding the type; a type without a count is held by no
    cell. *)
Theorem count_bounds_cells (s : UnpackedSchematic) (t : Z) :
  reachable s -> t <> 0 ->
  (JsMap.get t (blockCounts s) = None /\ cellsHolding t (schematic s) = 0)
  \/ (exists c, JsMap.get t (blockCounts s) = Some (Num c)
                /\ cellsHolding t (schematic s) <= c).
Proof.
  intros Hreach Ht.
  pose proof (reachable_countCoversCells s t Hreach Ht) as H.
  unfold countCoversCells in H.
  destruct (JsMap.get t (blockCounts s)) as [[c|]|]; [right; eauto | done | by left].
Qed.

Lemma count_bounds_cells_witness :
  (JsMap.get 5 (blockCounts gridFull) = None /\ cellsHolding 5 (schematic gridFull) = 0)
  \/ (exists c, JsMap.get 5 (blockCounts gridFull) = Some (Num c)
                /\ cellsHolding 5 (schematic gridFull) <= c).
Proof.
  apply (count_bounds_cells gridFull 5); [repeat constructor | discriminate].
Defined.

(* ===================================================================== *)
(** ** More on unwrapping: the fill loops *)

Lemma f32_get_set (m : list float) (k j : nat) (v : float) :
  f32_get (f32_set m k v) j
  = if decide (j = k /\ (k < length m)%nat) then fround v else f32_get m j.
Proof.
  unfold f32_get, f32_set. rewrite !nth_lookup.
  destruct (decide (j = k /\ (k < length m)%nat)) as [[-> Hlt]|Hn].
  - by rewrite list_lookup_insert_eq.
  - destruct (decide (k = j)) as [->|Hne].
    + rewrite list_insert_ge by lia. done.
    + by rewrite list_lookup_insert_ne.
Qed.

Lemma f32_set_length (m : list float) (k : nat) (v : float) :
  length (f32_set m k v) = length m.
Proof. unfold f32_set. apply length_insert. Qed.

Lemma offer_length val off i m : length (offer val off i m) = length m.
Proof. unfold offer. destruct (_ =? _)%float; [apply f32_set_length | done]. Qed.

Lemma offer_other val off i m j :
  j <> (off + i)%nat -> f32_get (offer val off i m) j = f32_get m j.
Proof.
  intros Hne. unfold offer. destruct (_ =? _)%float; [|done].
  rewrite f32_get_set. destruct (decide _) as [[? _]|_]; [done | done].
Qed.

Lemma offer_same val off i m :
  (off + i < length m)%nat ->
  f32_get (offer val off i m) (off + i)
  = if unset m (off + i) then fround (val i) else f32_get m (off + i).
Proof.
  intros Hlt. unfold offer, unset. destruct (_ =? _)%float; [|done].
  rewrite f32_get_set. destruct (decide _) as [_|Hn]; [done|].
  exfalso. apply Hn. done.
Qed.

(** An element that is set is never changed by a turn. *)
Lemma offer_keeps_set val off i m j :
  unset m j = false -> f32_get (offer val off i m) j = f32_get m j.
Proof.
  intros Hset. destruct (decide (j = (off + i)%nat)) as [->|Hne].
  - unfold offer. unfold unset in Hset. by rewrite Hset.
  - by apply offer_other.
Qed.

Section OfferLoop.
Variables (val : nat -> float) (off : nat).

Lemma offers_length l : forall m,
  length (fold_left (fun m i => offer val off i m) l m) = length m.
Proof.
  induction l as [|i l IH]; intros m; simpl; [done|].
  by rewrite IH, offer_length.
Qed.

Lemma offers_keep_set l j : forall m,
  unset m j = false ->
  f32_get (fold_left (fun m i => offer val off i m) l m) j = f32_get m j.
Proof.
  induction l as [|i l IH]; intros m Hset; simpl; [done|].
  rewrite IH.
  - by apply offer_keeps_set.
  - unfold unset. rewrite offer_keeps_set by done. exact Hset.
Qed.

Lemma offers_untouched l j : forall m,
  (forall i, In i l -> j <> (off + i)%nat) ->
  f32_get (fold_left (fun m i => offer val off i m) l m) j = f32_get m j.
Proof.
  induction l as [|i l IH]; intros m Hl; simpl; [done|].
  rewrite IH by (intros i' Hi'; apply Hl; by right).
  apply offer_other, Hl. by left.
Qed.

Lemma offers_touched l i : forall m,
  NoDup l -> In i l -> (off + i < length m)%nat ->
  f32_get (fold_left (fun m i => offer val off i m) l m) (off + i)
  = if unset m (off + i) then fround (val i) else f32_get m (off + i).
Proof.
  induction l as [|a l IH]; intros m Hnd Hin Hlt; [destruct Hin|].
  apply NoDup_cons in Hnd as [Ha Hnd]. simpl.
  destruct (decide (a = i)) as [->|Hne].
  - rewrite offers_untouched.
    + by apply offer_same.
    + intros i' Hi' Heq. assert (i' = i) by lia. subst i'.
      apply Ha. by apply list_elem_of_In.
  - destruct Hin as [?|Hin]; [done|].
    rewrite IH; [|done|done|by rewrite offer_length].
    unfold unset. rewrite !offer_other by lia. done.
Qed.
End OfferLoop.

Lemma mapTextures_offers s mapping stride o :
  mapTextures s mapping stride o
  = fold_left (fun m i => offer (fun i => nth i (faceUVs s stride) nan) (offsetValue o) i m)
      (seq 0 8) mapping.
Proof. reflexivity. Qed.

Lemma mapTextures_length s mapping stride o :
  length (mapTextures s mapping stride o) = length mapping.
Proof. rewrite mapTextures_offers. apply offers_length. Qed.

Lemma mapTextures_keeps_set s mapping stride o j :
  unset mapping j = false ->
  f32_get (mapTextures s mapping stride o) j = f32_get mapping j.
Proof. intros H. rewrite mapTextures_offers. by apply offers_keep_set. Qed.

Lemma mapTextures_outside s mapping stride o j :
  ~ (offsetValue o <= j < offsetValue o + 8)%nat ->
  f32_get (mapTextures s mapping stride o) j = f32_get mapping j.
Proof.
  intros H. rewrite mapTextures_offers. apply offers_untouched.
  intros i Hi%in_seq. lia.
Qed.

Lemma mapTextures_inside s mapping stride o i :
  (i < 8)%nat -> (offsetValue o + 8 <= length mapping)%nat ->
  f32_get (mapTextures s mapping stride o) (offsetValue o + i)
  = if unset mapping (offsetValue o + i)
    then fround (nth i (faceUVs s stride) nan)
    else f32_get mapping (offsetValue o + i).
Proof.
  intros Hi Hlen. rewrite mapTextures_offers.
  apply (offers_touched (fun i => nth i (faceUVs s stride) nan)).
  - apply NoDup_seq.
  - apply in_seq. lia.
  - lia.
Qed.

Lemma faceSlot_lookup o (uv : list float) i :
  (i < 8)%nat -> faceSlot o uv !! i = uv !! (offsetValue o + i)%nat.
Proof. intros Hi. unfold faceSlot. by rewrite lookup_take_lt, lookup_drop. Qed.

Lemma f32_get_lookup (uv : list float) j :
  (j < length uv)%nat -> uv !! j = Some (f32_get uv j).
Proof.
  intros Hj. unfold f32_get. destruct (nth_lookup_or_length uv j nan); [done | lia].
Qed.

(** X8: [mapTextures] on a face none of whose eight elements is set writes
    exactly the eight values [u1,v1, u0,v1, u1,v0, u0,v0] of the tile, each
    rounded to binary32, into that face, leaves every element outside the
    face as it was and keeps the length of the table. *)
Theorem mapTextures_fresh_face (s : UnpackedSchematic) (mapping : list float)
    (stride : float) (o : Offset) :
  (offsetValue o + 8 <= length mapping)%nat ->
  (forall i, (i < 8)%nat -> unset mapping (offsetValue o + i) = true) ->
  faceSlot o (mapTextures s mapping stride o) = map fround (faceUVs s stride)
  /\ (forall j, ~ (offsetValue o <= j < offsetValue o + 8)%nat ->
        f32_get (mapTextures s mapping stride o) j = f32_get mapping j)
  /\ length (mapTextures s mapping stride o) = length mapping.
Proof.
  intros Hlen Hunset.
  split; [|split; [intros j Hj; by apply mapTextures_outside | apply mapTextures_length]].
  apply list_eq. intros i.
  destruct (decide (i < 8)%nat) as [Hi|Hi].
  - rewrite faceSlot_lookup by done.
    rewrite f32_get_lookup by (rewrite mapTextures_length; lia).
    rewrite mapTextures_inside, Hunset by done.
    rewrite list_lookup_fmap.
    rewrite (f32_get_lookup (faceUVs s stride) i) by (simpl; lia). done.
  - rewrite !lookup_ge_None_2; [done | simpl; lia |].
    unfold faceSlot. rewrite length_take. lia.
Qed.

Lemma mapTextures_fresh_face_witness :
  faceSlot TOP (mapTextures gridAll (replicate 48 (-1)%float) 2%float TOP)
    = map fround (faceUVs gridAll 2%float)
  /\ (forall j, ~ (offsetValue TOP <= j < offsetValue TOP + 8)%nat ->
        f32_get (mapTextures gridAll (replicate 48 (-1)%float) 2%float TOP) j
        = f32_get (replicate 48 (-1)%float) j)
  /\ length (mapTextures gridAll (replicate 48 (-1)%float) 2%float TOP)
     = length (replicate 48 (-1)%float).
Proof.
  apply (mapTextures_fresh_face gridAll (replicate 48 (-1)%float) 2%float TOP).
  - simpl. lia.
  - intros i Hi. unfold unset, f32_get. rewrite nth_lookup, lookup_replicate_2; [reflexivity|].
    simpl. lia.
Defined.

(* ===================================================================== *)
(** ** More on unwrapping: keys, shape, cache *)

Lemma mapTextures_stays_set s mapping stride o j :
  unset mapping j = false -> unset (mapTextures s mapping stride o) j = false.
Proof. intros H. unfold unset. rewrite mapTextures_keeps_set by done. exact H. Qed.

Ltac through_mapTextures :=
  repeat (rewrite mapTextures_keeps_set;
          [|repeat apply mapTextures_stays_set; assumption]).

Lemma switchKey_keeps_set s key value uv j :
  unset uv j = false -> f32_get (switchKey s key value uv) j = f32_get uv j.
Proof.
  intros H. unfold switchKey.
  repeat (match goal with
          | |- context [if ?b then _ else _] => destruct b
          end); through_mapTextures; reflexivity.
Qed.

Lemma switchKey_length s key value uv :
  length (switchKey s key value uv) = length uv.
Proof.
  unfold switchKey.
  repeat (match goal with
          | |- context [if ?b then _ else _] => destruct b
          end); rewrite ?mapTextures_length; reflexivity.
Qed.

Lemma applyKeys_length s (e : FaceMapping) : forall uv,
  length (applyKeys s e uv) = length uv.
Proof.
  unfold applyKeys. induction e as [|[k v] e IH]; intros uv; [reflexivity|].
  cbn [fold_left fst snd]. by rewrite IH, switchKey_length.
Qed.

Lemma applyKeys_keeps_set s (e : FaceMapping) j : forall uv,
  unset uv j = false -> f32_get (applyKeys s e uv) j = f32_get uv j.
Proof.
  unfold applyKeys. induction e as [|[k v] e IH]; intros uv H; [reflexivity|].
  cbn [fold_left fst snd]. rewrite IH.
  - by apply switchKey_keeps_set.
  - unfold unset. rewrite switchKey_keeps_set by done. exact H.
Qed.

Lemma applyKeys_app s (e1 e2 : FaceMapping) uv :
  applyKeys s (e1 ++ e2) uv = applyKeys s e2 (applyKeys s e1 uv).
Proof. unfold applyKeys. apply fold_left_app. Qed.

Lemma unwrapFresh_fill s (e : FaceMapping) :
  unwrapFresh s e
  = fold_left (fun m i => offer (fun _ => 0.5%float) 0 i m) (seq 0 48)
      (applyKeys s e (replicate 48 (-1)%float)).
Proof. reflexivity. Qed.

Lemma unwrapFresh_length s e : length (unwrapFresh s e) = 48%nat.
Proof.
  rewrite unwrapFresh_fill, offers_length, applyKeys_length. apply length_replicate.
Qed.

Lemma unwrapFresh_element s e i :
  (i < 48)%nat ->
  f32_get (unwrapFresh s e) i
  = if unset (applyKeys s e (replicate 48 (-1)%float)) i
    then 0.5%float
    else f32_get (applyKeys s e (replicate 48 (-1)%float)) i.
Proof.
  intros Hi. rewrite unwrapFresh_fill.
  change i with (0 + i)%nat at 1.
  rewrite (offers_touched (fun _ => 0.5%float) 0).
  - reflexivity.
  - apply NoDup_seq.
  - apply in_seq. lia.
  - rewrite applyKeys_length, length_replicate. lia.
Qed.

(** What a cache miss returns is the freshly computed table of a
    non-empty entry. *)
Lemma unwrapUVs_miss_inv t p uv :
  uvCache p !! t = None ->
  snd (unwrapUVs t p) = Return (Some uv) ->
  exists s d e,
    this_schematic p = Some s /\ textureDictionary s = Some d
    /\ d !! t = Some e /\ e <> [] /\ uv = unwrapFresh s e.
Proof.
  intros Hc H.
  destruct (this_schematic p) as [s|] eqn:Hs.
  2:{ unfold unwrapUVs in H. rewrite Hc, Hs in H. discriminate H. }
  destruct (textureDictionary s) as [d|] eqn:Hd.
  2:{ unfold unwrapUVs in H. rewrite Hc, Hs, Hd in H. discriminate H. }
  destruct (d !! t) as [e|] eqn:He.
  2:{ rewrite (unwrapUVs_no_entry t p s d Hc Hs Hd He) in H. discriminate H. }
  destruct e as [|kv e].
  { rewrite (unwrapUVs_empty t p s d Hc Hs Hd He) in H. discriminate H. }
  rewrite (unwrapUVs_miss t p s d (kv :: e) Hc Hs Hd He) in H by discriminate.
  cbn [snd] in H. injection H as <-.
  exists s, d, (kv :: e). repeat split; try assumption. discriminate.
Qed.

(** X9: first assignment wins.  When the keys of an entry are applied in
    order, an element of the table that the keys so far have set keeps its
    value whatever keys follow, and the final fill loop does not touch it:
    the table [unwrapUVs] returns on a cache miss for the entry
    [e1 ++ e2] agrees with the table after [e1] on every element that [e1]
    has set. *)
Theorem unwrapUVs_first_key_wins (t : Z) (p : GeometryPlacer)
    (s : UnpackedSchematic) (d : gmap Z FaceMapping) (e1 e2 : FaceMapping) (i : nat) :
  uvCache p !! t = None ->
  this_schematic p = Some s ->
  textureDictionary s = Some d ->
  d !! t = Some (e1 ++ e2) ->
  unset (applyKeys s e1 (replicate 48 (-1)%float)) i = false ->
  (i < 48)%nat ->
  exists uv,
    snd (unwrapUVs t p) = Return (Some uv)
    /\ f32_get uv i = f32_get (applyKeys s e1 (replicate 48 (-1)%float)) i.
Proof.
  intros Hc Hs Hd He Hset Hi.
  assert (Hne : e1 ++ e2 <> []).
  { destruct e1 as [|kv e1]; [|discriminate].
    exfalso. revert Hset. unfold unset, f32_get. cbn [applyKeys fold_left].
    rewrite nth_lookup, lookup_replicate_2 by done. cbn [default]. discriminate. }
  exists (unwrapFresh s (e1 ++ e2)). split.
  - rewrite (unwrapUVs_miss t p s d (e1 ++ e2) Hc Hs Hd He Hne). reflexivity.
  - rewrite unwrapFresh_element by done. rewrite applyKeys_app.
    assert (Hset2 : unset (applyKeys s e2 (applyKeys s e1 (replicate 48 (-1)%float))) i = false).
    { unfold unset. rewrite applyKeys_keeps_set by done. exact Hset. }
    rewrite Hset2. by apply applyKeys_keeps_set.
Qed.

(** The entry [{ "top": 0, "all": 1 }]: the top face stays with tile 0. *)
Lemma unwrapUVs_first_key_wins_witness :
  exists uv,
    snd (unwrapUVs 5
           (mkPlacer (Some (setTextureData "atlas" 4%float
                       {[ 5 := [("top"%string, 0%float)] ++ [("all"%string, 1%float)] ]}
                       (newSchematic 1 1 1))) ∅))
      = Return (Some uv)
    /\ f32_get uv 16
       = f32_get (applyKeys (setTextureData "atlas" 4%float
                    {[ 5 := [("top"%string, 0%float)] ++ [("all"%string, 1%float)] ]}
                    (newSchematic 1 1 1))
                    [("top"%string, 0%float)] (replicate 48 (-1)%float)) 16.
Proof.
  apply (unwrapUVs_first_key_wins 5 _ _
           {[ 5 := [("top"%string, 0%float)] ++ [("all"%string, 1%float)] ]}
           [("top"%string, 0%float)] [("all"%string, 1%float)] 16%nat);
    first [reflexivity | lia].
Defined.

(** X10: every table [unwrapUVs] computes (on a cache miss) has 48
    elements and none of them is the sentinel -1 any more: what the keys
    left unset has been filled. *)
Theorem unwrapUVs_table_shape (t : Z) (p : GeometryPlacer) (uv : list float) :
  uvCache p !! t = None ->
  snd (unwrapUVs t p) = Return (Some uv) ->
  length uv = 48%nat /\ forall i, unset uv i = false.
Proof.
  intros Hc H.
  destruct (unwrapUVs_miss_inv t p uv Hc H) as (s & d & e & _ & _ & _ & _ & ->).
  split; [apply unwrapFresh_length|]. intros i.
  destruct (decide (i < 48)%nat) as [Hi|Hi].
  - unfold unset at 1. rewrite unwrapFresh_element by done.
    destruct (unset (applyKeys s e (replicate 48 (-1)%float)) i) eqn:E.
    + reflexivity.
    + exact E.
  - unfold unset, f32_get. rewrite nth_overflow; [reflexivity|].
    rewrite unwrapFresh_length. lia.
Qed.

Lemma unwrapUVs_table_shape_witness :
  length (unwrapFresh gridTopSide [("top"%string, 0%float); ("side"%string, 1%float)])
    = 48%nat
  /\ forall i, unset (unwrapFresh gridTopSide
                        [("top"%string, 0%float); ("side"%string, 1%float)]) i = false.
Proof.
  apply (unwrapUVs_table_shape 5 (mkPlacer (Some gridTopSide) ∅)); reflexivity.
Defined.

Lemma switchKey_no_case s key value uv :
  ~ In key caseKeys -> switchKey s key value uv = uv.
Proof.
  intros H. unfold switchKey.
  assert (Hneq : forall lit, In lit caseKeys -> String.eqb key lit = false).
  { intros lit Hlit. apply String.eqb_neq. intros ->. contradiction. }
  rewrite !Hneq by (unfold caseKeys; simpl; tauto). reflexivity.
Qed.

Lemma applyKeys_no_case s (e : FaceMapping) uv :
  Forall (fun kv => ~ In (fst kv) caseKeys) e -> applyKeys s e uv = uv.
Proof.
  unfold applyKeys. induction 1 as [|[k v] e Hk He IH]; [reflexivity|].
  cbn [fold_left fst snd]. rewrite switchKey_no_case by exact Hk. exact IH.
Qed.

(** X11: a key without a [case] writes nothing, but it still counts as a
    key: an entry that is not empty and holds only such keys is not
    skipped; on a cache miss [unwrapUVs] returns, and caches, the table
    that is 0.5 everywhere. *)
Theorem unwrapUVs_only_unknown_keys (t : Z) (p : GeometryPlacer)
    (s : UnpackedSchematic) (d : gmap Z FaceMapping) (e : FaceMapping) :
  uvCache p !! t = None ->
  this_schematic p = Some s ->
  textureDictionary s = Some d ->
  d !! t = Some e ->
  e <> [] ->
  Forall (fun kv => ~ In (fst kv) caseKeys) e ->
  unwrapUVs t p
  = (mkPlacer (Some s) (<[t := replicate 48 0.5%float]> (uvCache p)),
     Return (Some (replicate 48 0.5%float))).
Proof.
  intros Hc Hs Hd He Hne Hkeys.
  rewrite (unwrapUVs_miss t p s d e Hc Hs Hd He Hne).
  assert (Hfresh : unwrapFresh s e = replicate 48 0.5%float).
  { rewrite unwrapFresh_fill, applyKeys_no_case by exact Hkeys.
    vm_compute. reflexivity. }
  rewrite Hfresh. reflexivity.
Qed.

Lemma unwrapUVs_only_unknown_keys_witness :
  unwrapUVs 5 (mkPlacer (Some gridSides) ∅)
  = (mkPlacer (Some gridSides) (<[5 := replicate 48 0.5%float]> ∅),
     Return (Some (replicate 48 0.5%float))).
Proof.
  apply (unwrapUVs_only_unknown_keys 5 (mkPlacer (Some gridSides) ∅) gridSides
           {[ 5 := [("sides"%string, 1%float)] ]} [("sides"%string, 1%float)]);
    try reflexivity.
  - discriminate.
  - constructor; [|constructor]. unfold caseKeys. simpl.
    intros [H|[H|[H|[H|[H|[H|[H|[H|[H|[H|[]]]]]]]]]]]; discriminate H.
Defined.

(** X12: unwrapping is idempotent.  Once [unwrapUVs] has returned a table
    for a type, a second call on the placer it left returns the same table
    and leaves the placer as it is. *)
Theorem unwrapUVs_twice (t : Z) (p : GeometryPlacer) (uv : list float) :
  snd (unwrapUVs t p) = Return (Some uv) ->
  unwrapUVs t (fst (unwrapUVs t p)) = (fst (unwrapUVs t p), Return (Some uv)).
Proof.
  intros H. destruct (uvCache p !! t) as [c|] eqn:Hc.
  - rewrite (unwrapUVs_hit t p c Hc) in *. cbn [fst snd] in *.
    injection H as <-. by apply unwrapUVs_hit.
  - destruct (unwrapUVs_miss_inv t p uv Hc H) as (s & d & e & Hs & Hd & He & Hne & ->).
    rewrite (unwrapUVs_miss t p s d e Hc Hs Hd He Hne). cbn [fst].
    apply unwrapUVs_hit. cbn [uvCache]. apply lookup_insert_eq.
Qed.

Lemma unwrapUVs_twice_witness :
  unwrapUVs 5 (fst (unwrapUVs 5 (mkPlacer (Some gridAll) ∅)))
  = (fst (unwrapUVs 5 (mkPlacer (Some gridAll) ∅)),
     Return (Some (unwrapFresh gridAll [("all"%string, 0%float)]))).
Proof.
  apply (unwrapUVs_twice 5 (mkPlacer (Some gridAll) ∅)).
  rewrite (unwrapUVs_miss 5 (mkPlacer (Some gridAll) ∅) gridAll
             {[ 5 := [("all"%string, 0%float)] ]} [("all"%string, 0%float)]);
    first [reflexivity | discriminate].
Defined.

(* ===================================================================== *)
(** ** More on [create]: how it ends, what it caches, what it emits *)

Lemma unwrapAll_only_TypeError blockTypes : forall acc p p' e,
  unwrapAll blockTypes acc p = (p', Throw e) -> e = TypeError.
Proof.
  induction blockTypes as [|bt rest IH]; intros acc p p' e H; simpl in H; [discriminate|].
  pose proof (unwrapUVs_only_TypeError bt p) as Hu.
  destruct (unwrapUVs bt p) as [p1 [[uv|]|err]]; simpl in Hu.
  - by apply (IH _ _ _ _ H).
  - by apply (IH _ _ _ _ H).
  - injection H as _ <-. by apply Hu.
Qed.

Lemma create_checked s p :
  truthyNumber (textureCount s) && truthyString (textureData s)
    && truthyObject (textureDictionary s) = true ->
  create s p =
    match unwrapAll (JsMap.keys (blockCounts s)) JsMap.empty
            (mkPlacer (Some s) (uvCache p)) with
    | (p', Throw e) => (p', Throw e)
    | (p', Return typeToUV) =>
        (p', Return (mkPlaced
           (snd (buildMeshes s typeToUV (JsMap.keys (blockCounts s)) JsMap.empty []))
           (writes (scan s (fst (buildMeshes s typeToUV (JsMap.keys (blockCounts s))
                                   JsMap.empty []))))))
    end.
Proof.
  intros H. apply andb_prop in H as [H H3]. apply andb_prop in H as [H1 H2].
  unfold create. rewrite H1, H2, H3. cbn [negb orb].
  destruct (unwrapAll _ _ _) as [p' [typeToUV|e]]; [|reflexivity].
  by destruct (buildMeshes _ _ _ _ _).
Qed.

Lemma create_unchecked s p :
  truthyNumber (textureCount s) && truthyString (textureData s)
    && truthyObject (textureDictionary s) = false ->
  create s p = (p, Throw TextureNotSet).
Proof.
  intros H. unfold create.
  destruct (truthyNumber _), (truthyString _), (truthyObject _);
    try discriminate H; reflexivity.
Qed.

(** X13: [create] ends in one of three ways.  It throws "Texture data is
    not set!" exactly when one of the three atlas fields is falsy, and then
    leaves the placer untouched; the only other error it can throw is a
    [TypeError]; it never throws the errors of the grid. *)
Theorem create_error_kinds (s : UnpackedSchematic) (p : GeometryPlacer) :
  (snd (create s p) = Throw TextureNotSet
   <-> truthyNumber (textureCount s) && truthyString (textureData s)
         && truthyObject (textureDictionary s) = false)
  /\ (snd (create s p) = Throw TextureNotSet -> fst (create s p) = p)
  /\ (forall e, snd (create s p) = Throw e -> e = TextureNotSet \/ e = TypeError).
Proof.
  destruct (truthyNumber (textureCount s) && truthyString (textureData s)
              && truthyObject (textureDictionary s)) eqn:Hchk.
  - rewrite (create_checked s p Hchk).
    pose proof (unwrapAll_only_TypeError (JsMap.keys (blockCounts s)) JsMap.empty
                  (mkPlacer (Some s) (uvCache p))) as Hu.
    destruct (unwrapAll _ _ _) as [p' [typeToUV|e]]; cbn [fst snd].
    + split; [split; discriminate|]. split; [discriminate|]. intros e. discriminate.
    + rewrite (Hu p' e eq_refl).
      split; [split; discriminate|]. split; [discriminate|].
      intros e' [= <-]. by right.
  - rewrite (create_unchecked s p Hchk). cbn [fst snd].
    split; [split; reflexivity|]. split; [reflexivity|].
    intros e [= <-]. by left.
Qed.

Lemma unwrapUVs_cache_mono t t' p uv :
  uvCache p !! t' = Some uv -> uvCache (fst (unwrapUVs t p)) !! t' = Some uv.
Proof.
  intros H. destruct (decide (t = t')) as [->|Hne].
  - by rewrite (unwrapUVs_hit t' p uv H).
  - by rewrite unwrapUVs_cache_other.
Qed.

Lemma unwrapAll_cache_mono blockTypes t uv : forall acc p,
  uvCache p !! t = Some uv ->
  uvCache (fst (unwrapAll blockTypes acc p)) !! t = Some uv.
Proof.
  induction blockTypes as [|bt rest IH]; intros acc p H; simpl; [done|].
  pose proof (unwrapUVs_cache_mono bt t p uv H) as Hu.
  destruct (unwrapUVs bt p) as [p1 [[c|]|e]]; simpl in Hu.
  - by apply IH.
  - by apply IH.
  - exact Hu.
Qed.

(** X14: [create] never drops or replaces a cached table: whatever the
    placer held for a block type before the call it still holds after it,
    whether the call returned or threw. *)
Theorem create_keeps_cache (s : UnpackedSchematic) (p : GeometryPlacer)
    (t : Z) (uv : list float) :
  uvCache p !! t = Some uv ->
  uvCache (fst (create s p)) !! t = Some uv.
Proof.
  intros H.
  destruct (truthyNumber (textureCount s) && truthyString (textureData s)
              && truthyObject (textureDictionary s)) eqn:Hchk.
  - rewrite (create_checked s p Hchk).
    pose proof (unwrapAll_cache_mono (JsMap.keys (blockCounts s)) t uv JsMap.empty
                  (mkPlacer (Some s) (uvCache p)) H) as Hu.
    by destruct (unwrapAll _ _ _) as [p' [typeToUV|e]].
  - by rewrite (create_unchecked s p Hchk).
Qed.

Lemma create_keeps_cache_witness :
  uvCache (fst (create gridNoEntry placerAfterAll)) !! 5
  = Some (unwrapFresh gridAll [("all"%string, 0%float)]).
Proof.
  apply (create_keeps_cache gridNoEntry placerAfterAll 5).
  vm_compute. reflexivity.
Defined.

Lemma unwrapUVs_returns t p s d :
  this_schematic p = Some s ->
  textureDictionary s = Some d ->
  is_Some (uvCache p !! t) \/ is_Some (d !! t) ->
  exists o, snd (unwrapUVs t p) = Return o.
Proof.
  intros Hs Hd H.
  destruct (uvCache p !! t) as [c|] eqn:Hc.
  { rewrite (unwrapUVs_hit t p c Hc). eauto. }
  destruct H as [[? H]|[e He]]; [discriminate|].
  destruct e as [|kv e].
  - rewrite (unwrapUVs_empty t p s d Hc Hs Hd He). eauto.
  - rewrite (unwrapUVs_miss t p s d (kv :: e) Hc Hs Hd He) by discriminate. eauto.
Qed.

Lemma unwrapAll_returns s d blockTypes : forall acc p,
  this_schematic p = Some s ->
  textureDictionary s = Some d ->
  (forall t, In t blockTypes -> is_Some (uvCache p !! t) \/ is_Some (d !! t)) ->
  exists p' typeToUV, unwrapAll blockTypes acc p = (p', Return typeToUV).
Proof.
  induction blockTypes as [|bt rest IH]; intros acc p Hs Hd Hall; simpl; [eauto|].
  destruct (unwrapUVs_returns bt p s d Hs Hd) as [o Ho]; [apply Hall; by left|].
  pose proof (unwrapUVs_schematic bt p) as H1.
  assert (Hrest : forall t, In t rest ->
            is_Some (uvCache (fst (unwrapUVs bt p)) !! t) \/ is_Some (d !! t)).
  { intros t Ht. destruct (Hall t (or_intror Ht)) as [[c Hc]|He]; [left|by right].
    exists c. by apply unwrapUVs_cache_mono. }
  destruct (unwrapUVs bt p) as [p1 c]. cbn [fst snd] in *. subst c.
  destruct o as [uv|]; apply IH; congruence || assumption.
Qed.

Lemma truthyObject_Some {A} (v : option A) :
  truthyObject v = true -> exists d, v = Some d.
Proof. destruct v; [eauto | discriminate]. Qed.

(** X15: when [create] returns.  It returns (rather than throws) exactly
    when the three atlas fields are truthy and every counted block type,
    type 0 included once it has been written, has a cached table in the
    placer or an entry, possibly empty, in the dictionary. *)
Theorem create_returns_iff (s : UnpackedSchematic) (p : GeometryPlacer) :
  (exists r, snd (create s p) = Return r)
  <-> truthyNumber (textureCount s) && truthyString (textureData s)
        && truthyObject (textureDictionary s) = true
      /\ forall t, In t (JsMap.keys (blockCounts s)) ->
           is_Some (uvCache p !! t)
           \/ exists d, textureDictionary s = Some d /\ is_Some (d !! t).
Proof.
  destruct (truthyNumber (textureCount s) && truthyString (textureData s)
              && truthyObject (textureDictionary s)) eqn:Hchk.
  2:{ rewrite (create_unchecked s p Hchk). split.
      - intros [r Hr]. discriminate Hr.
      - intros [H _]. discriminate H. }
  assert (Hdict : exists d, textureDictionary s = Some d).
  { apply truthyObject_Some. by apply andb_prop in Hchk as [_ ?]. }
  destruct Hdict as [d Hd].
  rewrite (create_checked s p Hchk). split.
  - intros [r Hr]. split; [reflexivity|]. intros t Ht.
    destruct (uvCache p !! t) as [c|] eqn:Hc; [left; eauto|]. right.
    exists d. split; [exact Hd|].
    destruct (d !! t) as [e|] eqn:He; [eauto|]. exfalso.
    destruct (unwrapAll_no_entry s d t Hd (JsMap.keys (blockCounts s)) JsMap.empty
                (mkPlacer (Some s) (uvCache p)) He eq_refl Hc Ht) as [p' Hthrow].
    rewrite Hthrow in Hr. discriminate Hr.
  - intros [_ Hall].
    destruct (unwrapAll_returns s d (JsMap.keys (blockCounts s)) JsMap.empty
                (mkPlacer (Some s) (uvCache p)) eq_refl Hd) as (p' & typeToUV & Hret).
    { intros t Ht. destruct (Hall t Ht) as [Hc|(d' & Hd' & He)]; [by left|right].
      congruence. }
    rewrite Hret. eauto.
Qed.

Lemma buildMeshes_emitted s typeToUV blockTypes : forall im out m,
  In m (snd (buildMeshes s typeToUV blockTypes im out)) ->
  In m out
  \/ (JsMap.get (meshType m) typeToUV = Some (meshUV m)
      /\ meshCount m = countOf s (meshType m)).
Proof.
  induction blockTypes as [|bt rest IH]; intros im out m Hm; simpl in Hm; [by left|].
  destruct (JsMap.get bt typeToUV) as [uv|] eqn:Huv; [|by apply (IH im out)].
  destruct (IH _ _ _ Hm) as [[Hin|Hin]%in_app_or|Hnew]; [by left| |by right].
  destruct Hin as [<-|[]]. right. simpl. done.
Qed.

Lemma buildMeshes_order s typeToUV blockTypes : forall im out,
  exists added,
    map meshType (snd (buildMeshes s typeToUV blockTypes im out))
    = map meshType out ++ added
    /\ sublist added blockTypes.
Proof.
  induction blockTypes as [|bt rest IH]; intros im out; simpl.
  - exists []. rewrite app_nil_r. split; [done | constructor].
  - destruct (JsMap.get bt typeToUV) as [uv|].
    + destruct (IH (JsMap.set bt (mkMesh bt uv (countOf s bt)) im)
                  (out ++ [mkMesh bt uv (countOf s bt)])) as (added & Heq & Hsub).
      exists (bt :: added). split; [|by constructor].
      rewrite Heq, map_app. simpl. by rewrite <- app_assoc.
    + destruct (IH im out) as (added & Heq & Hsub).
      exists added. split; [done | by constructor].
Qed.

Lemma unwrapUVs_result_cached t p uv :
  snd (unwrapUVs t p) = Return (Some uv) ->
  uvCache (fst (unwrapUVs t p)) !! t = Some uv.
Proof.
  intros H. destruct (uvCache p !! t) as [c|] eqn:Hc.
  - rewrite (unwrapUVs_hit t p c Hc) in *. cbn [fst snd] in *. congruence.
  - destruct (unwrapUVs_miss_inv t p uv Hc H) as (s & d & e & Hs & Hd & He & Hne & ->).
    rewrite (unwrapUVs_miss t p s d e Hc Hs Hd He Hne). cbn [fst uvCache].
    apply lookup_insert_eq.
Qed.

Lemma unwrapAll_results_cached blockTypes : forall acc p p' typeToUV,
  (forall t uv, JsMap.get t acc = Some uv -> uvCache p !! t = Some uv) ->
  unwrapAll blockTypes acc p = (p', Return typeToUV) ->
  forall t uv, JsMap.get t typeToUV = Some uv -> uvCache p' !! t = Some uv.
Proof.
  induction blockTypes as [|bt rest IH]; intros acc p p' typeToUV Hacc Hrun; simpl in Hrun.
  - injection Hrun as <- <-. exact Hacc.
  - pose proof (unwrapUVs_result_cached bt p) as Hres.
    pose proof (fun t uv => unwrapUVs_cache_mono bt t p uv) as Hmono.
    destruct (unwrapUVs bt p) as [p1 [[c|]|e]]; cbn [fst snd] in *; [| |discriminate].
    + eapply IH; [|exact Hrun].
      intros t uv. destruct (decide (bt = t)) as [->|Hne].
      * rewrite get_set_eq. intros [= <-]. by apply Hres.
      * rewrite get_set_ne by done. intros Hget. apply Hmono. by apply Hacc.
    + eapply IH; [|exact Hrun].
      intros t uv Hget. apply Hmono. by apply Hacc.
Qed.

(** X16: the batches of a [create] that returned.  Their block types are
    counted types in the iteration order of the occurrence-count map (a
    sublist of its keys); each batch is constructed with the count stored
    for its type as instance count, and its UV attribute is the table the
    placer now caches for the type. *)
Theorem create_emitted_batches (s : UnpackedSchematic) (p : GeometryPlacer)
    (r : Placed) :
  snd (create s p) = Return r ->
  sublist (map meshType (emitted r)) (JsMap.keys (blockCounts s))
  /\ forall m, In m (emitted r) ->
       meshCount m = countOf s (meshType m)
       /\ uvCache (fst (create s p)) !! meshType m = Some (meshUV m).
Proof.
  intros Hr.
  destruct (truthyNumber (textureCount s) && truthyString (textureData s)
              && truthyObject (textureDictionary s)) eqn:Hchk.
  2:{ rewrite (create_unchecked s p Hchk) in Hr. discriminate Hr. }
  rewrite (create_checked s p Hchk) in Hr |- *.
  destruct (unwrapAll _ _ _) as [p' [typeToUV|e]] eqn:Hall; [|discriminate Hr].
  cbn [fst snd] in *. injection Hr as <-. cbn [emitted].
  split.
  - destruct (buildMeshes_order s typeToUV (JsMap.keys (blockCounts s)) JsMap.empty [])
      as (added & Heq & Hsub).
    rewrite Heq. exact Hsub.
  - intros m Hm.
    destruct (buildMeshes_emitted s typeToUV _ _ _ m Hm) as [[]|[Huv Hcount]].
    split; [exact Hcount|].
    eapply unwrapAll_results_cached; [|exact Hall|exact Huv].
    intros t uv. discriminate.
Qed.

(* ===================================================================== *)
(** ** More on the scan: which cell is shown where, and in which slot *)

Lemma flat_map_uniform_lookup_inv {A B : Type} (f : A -> list B) (len : nat) (l : list A) :
  (forall a, length (f a) = len) ->
  forall k b, flat_map f l !! k = Some b ->
  exists i j a, k = (i * len + j)%nat /\ (j < len)%nat /\ l !! i = Some a /\ f a !! j = Some b.
Proof.
  intros Hlen. induction l as [|a0 l IH]; intros k b Hk; [done|].
  simpl in Hk. destruct (decide (k < len)%nat) as [Hlt|Hge].
  - rewrite lookup_app_l in Hk by (rewrite Hlen; lia).
    exists 0%nat, k, a0. split; [lia|]. split; [done|]. split; done.
  - rewrite lookup_app_r in Hk by (rewrite Hlen; lia). rewrite Hlen in Hk.
    destruct (IH _ _ Hk) as (i & j & a & Hkeq & Hj & Hi & Hb).
    exists (S i), j, a. split; [lia|]. split; [done|]. split; done.
Qed.

Lemma range_lookup_inv (n : Z) (i : nat) (x : Z) :
  range n !! i = Some x -> x = Z.of_nat i /\ 0 <= x < n.
Proof.
  unfold range. rewrite list_lookup_fmap. intros H.
  destruct (seq 0 (Z.to_nat n) !! i) as [i'|] eqn:E; [|discriminate].
  apply lookup_seq in E as [-> Hlt]. simpl in H. injection H as <-. lia.
Qed.

(** A cell of the order lies inside the grid, and its place in the order
    is its [scanIndexAt]. *)
Lemma scanOrder_lookup_inv (s : UnpackedSchematic) (k : nat) (x y z : Z) :
  scanOrder s !! k = Some (x, y, z) ->
  inBounds s x y z /\ Z.of_nat k = scanIndexAt s x y z.
Proof.
  rewrite scanOrder_eq. intros Hk.
  set (row := fun a b : Z => map (fun c : Z => (a, b, c)) (range (sizeZ s))) in *.
  set (plane := fun a : Z => flat_map (row a) (range (sizeY s))) in *.
  assert (Hrow : forall a b, length (row a b) = Z.to_nat (sizeZ s)).
  { intros. unfold row. by rewrite length_map, range_length. }
  assert (Hplane : forall a, length (plane a) = (Z.to_nat (sizeY s) * Z.to_nat (sizeZ s))%nat).
  { intros. unfold plane.
    rewrite (flat_map_uniform_length _ _ (Z.to_nat (sizeZ s))) by apply Hrow.
    by rewrite range_length. }
  destruct (flat_map_uniform_lookup_inv plane _ _ Hplane _ _ Hk)
    as (xi & j1 & x0 & -> & Hj1 & Hx0 & Hk1).
  unfold plane in Hk1.
  destruct (flat_map_uniform_lookup_inv (row x0) _ _ (Hrow x0) _ _ Hk1)
    as (yi & zi & y0 & -> & Hzi & Hy0 & Hk2).
  unfold row in Hk2. rewrite list_lookup_fmap in Hk2.
  destruct (range (sizeZ s) !! zi) as [z0|] eqn:Hz0; [|discriminate].
  simpl in Hk2. injection Hk2 as -> -> ->.
  apply range_lookup_inv in Hx0 as [-> Hx], Hy0 as [-> Hy], Hz0 as [-> Hz].
  split; [done|]. unfold scanIndexAt.
  rewrite !Nat2Z.inj_add, !Nat2Z.inj_mul, !Z2Nat.id by lia. lia.
Qed.

Section ScanCells.
Variables (s : UnpackedSchematic) (im : JsMap.t InstancedMesh).

Lemma scanCell_writes_in x y z st w :
  In w (writes (scanCell s im x y z st)) ->
  In w (writes st)
  \/ (writeMatrix w = updateMatrix x y z
      /\ array_get (schematic s) (index st) = Some (writeType w)
      /\ is_Some (JsMap.get (writeType w) im)).
Proof.
  unfold scanCell.
  destruct (array_get (schematic s) (index st)) as [bt|]; [|by left].
  destruct (JsMap.get bt im) as [mesh|] eqn:Hm; [|by left].
  cbn [writes]. intros [Hw|Hw]%in_app_or; [by left|].
  destruct Hw as [<-|[]]. right. cbn [writeMatrix writeType]. rewrite Hm. eauto.
Qed.

Lemma scanCell_writes_keep x y z st w :
  In w (writes st) -> In w (writes (scanCell s im x y z st)).
Proof.
  intros Hw. unfold scanCell.
  destruct (array_get (schematic s) (index st)) as [bt|]; [|done].
  destruct (JsMap.get bt im) as [mesh|]; [|done].
  cbn [writes]. apply in_or_app. by left.
Qed.

Lemma scanCell_writes_new x y z st t :
  array_get (schematic s) (index st) = Some t ->
  is_Some (JsMap.get t im) ->
  exists w, In w (writes (scanCell s im x y z st))
            /\ writeType w = t /\ writeMatrix w = updateMatrix x y z.
Proof.
  intros Hcell [mesh Hm]. unfold scanCell. rewrite Hcell, Hm.
  eexists. split; [cbn [writes]; apply in_or_app; right; by left|]. done.
Qed.

Lemma scanCells_keep (cells : list (Z * Z * Z)) w : forall st,
  In w (writes st) ->
  In w (writes (fold_left (fun st c => scanCell s im c.1.1 c.1.2 c.2 st) cells st)).
Proof.
  induction cells as [|c cells IH]; intros st Hw; simpl; [done|].
  by apply IH, scanCell_writes_keep.
Qed.

Lemma scanCells_sound (cells : list (Z * Z * Z)) w : forall st,
  In w (writes (fold_left (fun st c => scanCell s im c.1.1 c.1.2 c.2 st) cells st)) ->
  In w (writes st)
  \/ exists (k : nat) x y z,
       cells !! k = Some (x, y, z)
       /\ writeMatrix w = updateMatrix x y z
       /\ array_get (schematic s) (index st + Z.of_nat k) = Some (writeType w)
       /\ is_Some (JsMap.get (writeType w) im).
Proof.
  induction cells as [|[[x y] z] cells IH]; intros st Hw; simpl in Hw; [by left|].
  destruct (IH _ Hw) as [Hin|(k & x' & y' & z' & Hk & Hm & Hcell & Hmesh)].
  - destruct (scanCell_writes_in _ _ _ _ _ Hin) as [?|(Hm & Hcell & Hmesh)]; [by left|].
    right. exists 0%nat, x, y, z. rewrite Z.add_0_r. done.
  - right. exists (S k), x', y', z'. rewrite scanCell_index in Hcell.
    replace (index st + Z.of_nat (S k)) with (index st + 1 + Z.of_nat k) by lia. done.
Qed.

Lemma scanCells_complete (cells : list (Z * Z * Z)) : forall st (k : nat) x y z t,
  cells !! k = Some (x, y, z) ->
  array_get (schematic s) (index st + Z.of_nat k) = Some t ->
  is_Some (JsMap.get t im) ->
  exists w, In w (writes (fold_left (fun st c => scanCell s im c.1.1 c.1.2 c.2 st) cells st))
            /\ writeType w = t /\ writeMatrix w = updateMatrix x y z.
Proof.
  induction cells as [|c cells IH]; intros st k x y z t Hk Hcell Hmesh; [done|].
  simpl. destruct k as [|k]; simpl in Hk.
  - injection Hk as ->. rewrite Z.add_0_r in Hcell. simpl.
    destruct (scanCell_writes_new x y z st t Hcell Hmesh) as (w & Hw & Ht & Hm).
    exists w. split; [by apply scanCells_keep | done].
  - apply (IH _ k); [done | | done].
    rewrite scanCell_index.
    replace (index st + 1 + Z.of_nat k) with (index st + Z.of_nat (S k)) by lia. done.
Qed.

(** The slots handed out for a type are 0, 1, 2, ... in the order of the
    writes. *)
Lemma writesOf_app t ws ws' : writesOf t (ws ++ ws') = writesOf t ws ++ writesOf t ws'.
Proof. unfold writesOf. apply List.filter_app. Qed.

Lemma range_succ n : 0 <= n -> range (n + 1) = range n ++ [n].
Proof.
  intros Hn. unfold range.
  replace (Z.to_nat (n + 1)) with (S (Z.to_nat n)) by lia.
  rewrite seq_S, map_app. simpl. by rewrite Z2Nat.id.
Qed.

Lemma scanCell_slots_in_order x y z st :
  (forall t, 0 <= nextSlot t st
             /\ map writeSlot (writesOf t (writes st)) = range (nextSlot t st)) ->
  forall t, 0 <= nextSlot t (scanCell s im x y z st)
            /\ map writeSlot (writesOf t (writes (scanCell s im x y z st)))
               = range (nextSlot t (scanCell s im x y z st)).
Proof.
  intros Hst t. unfold scanCell.
  destruct (array_get (schematic s) (index st)) as [bt|]; [|apply Hst].
  destruct (JsMap.get bt im) as [mesh|]; [|apply Hst].
  destruct (Hst t) as [Hn Hslots]. destruct (Hst bt) as [Hnb _].
  unfold nextSlot in *. cbn [blockIndexes writes] in *.
  rewrite writesOf_app, map_app, Hslots.
  unfold writesOf. cbn [List.filter writeType].
  destruct (decide (bt = t)) as [->|Hne].
  - rewrite get_set_eq, Z.eqb_refl.
    set (n := default 0 (JsMap.get t (blockIndexes st))) in *.
    cbn [default map writeSlot]. change (id (n + 1)) with (n + 1).
    split; [lia|]. symmetry. by apply range_succ.
  - rewrite get_set_ne by done.
    assert ((bt =? t) = false) as -> by by apply Z.eqb_neq.
    cbn [map]. rewrite app_nil_r. done.
Qed.

Lemma scan_slots_in_order t :
  0 <= nextSlot t (scan s im)
  /\ map writeSlot (writesOf t (writes (scan s im))) = range (nextSlot t (scan s im)).
Proof.
  revert t. unfold scan.
  apply (scanLoops_invariant
           (fun st => forall t, 0 <= nextSlot t st
              /\ map writeSlot (writesOf t (writes st)) = range (nextSlot t st))).
  - intros x y z st. apply scanCell_slots_in_order.
  - intros t. unfold nextSlot. simpl. split; [lia | reflexivity].
Qed.
End ScanCells.

Lemma buildMeshes_keeps_stored s typeToUV t blockTypes : forall im out,
  is_Some (JsMap.get t im) ->
  is_Some (JsMap.get t (fst (buildMeshes s typeToUV blockTypes im out))).
Proof.
  induction blockTypes as [|bt rest IH]; intros im out H; simpl; [done|].
  destruct (JsMap.get bt typeToUV) as [uv|]; [|by apply IH].
  apply IH. destruct (decide (bt = t)) as [->|Hne].
  - rewrite get_set_eq. eauto.
  - by rewrite get_set_ne.
Qed.

Lemma buildMeshes_emitted_stored s typeToUV blockTypes : forall im out m,
  In m (snd (buildMeshes s typeToUV blockTypes im out)) ->
  In m out \/ is_Some (JsMap.get (meshType m) (fst (buildMeshes s typeToUV blockTypes im out))).
Proof.
  induction blockTypes as [|bt rest IH]; intros im out m Hm; simpl in *; [by left|].
  destruct (JsMap.get bt typeToUV) as [uv|]; [|by apply IH].
  destruct (IH _ _ _ Hm) as [[Hin|Hin]%in_app_or|Hst]; [by left| |by right].
  destruct Hin as [<-|[]]. right. cbn [meshType].
  apply buildMeshes_keeps_stored. rewrite get_set_eq. eauto.
Qed.

(** What [create] computes when it returns, in terms of its loops. *)
Lemma create_Return_inv s p r :
  snd (create s p) = Return r ->
  exists typeToUV,
    emitted r = snd (buildMeshes s typeToUV (JsMap.keys (blockCounts s)) JsMap.empty [])
    /\ matrixWrites r
       = writes (scan s (fst (buildMeshes s typeToUV (JsMap.keys (blockCounts s))
                                JsMap.empty []))).
Proof.
  intros Hr.
  destruct (truthyNumber (textureCount s) && truthyString (textureData s)
              && truthyObject (textureDictionary s)) eqn:Hchk.
  2:{ rewrite (create_unchecked s p Hchk) in Hr. discriminate Hr. }
  rewrite (create_checked s p Hchk) in Hr.
  destruct (unwrapAll _ _ _) as [p' [typeToUV|e]]; [|discriminate Hr].
  cbn [snd] in Hr. injection Hr as <-. exists typeToUV. done.
Qed.

(** X17: every instance shows a scanned cell.  Each matrix a returning
    [create] writes is the translation to some coordinates [(x, y, z)]
    inside the grid, for the block type that the flat array holds at index
    [x*sizeY*sizeZ + y*sizeZ + z], and a batch was emitted for that type. *)
Theorem create_writes_show_cells (s : UnpackedSchematic) (p : GeometryPlacer)
    (r : Placed) (w : MatrixWrite) :
  snd (create s p) = Return r ->
  In w (matrixWrites r) ->
  exists x y z,
    inBounds s x y z
    /\ writeMatrix w = updateMatrix x y z
    /\ array_get (schematic s) (scanIndexAt s x y z) = Some (writeType w)
    /\ exists m, In m (emitted r) /\ meshType m = writeType w.
Proof.
  intros Hr Hw. destruct (create_Return_inv s p r Hr) as (typeToUV & Hem & Hwr).
  rewrite Hwr, scan_fold in Hw.
  destruct (scanCells_sound s _ _ w _ Hw) as [[]|(k & x & y & z & Hk & Hm & Hcell & [m Hmesh])].
  destruct (scanOrder_lookup_inv s k x y z Hk) as [Hin Hidx].
  exists x, y, z. cbn [index] in Hcell. rewrite Z.add_0_l, Hidx in Hcell.
  split; [exact Hin|]. split; [exact Hm|]. split; [exact Hcell|].
  destruct (buildMeshes_get s typeToUV (writeType w) _ _ _ m Hmesh)
    as [Hold|(Hout & Hty & _)]; [discriminate|].
  exists m. split; [by rewrite Hem | exact Hty].
Qed.

(** X18: every scanned cell of a batched type is shown.  When [create]
    returns and has emitted a batch for a type, every cell inside the grid
    whose flat index [x*sizeY*sizeZ + y*sizeZ + z] holds that type gets a
    matrix, the translation to [(x, y, z)]. *)
Theorem create_shows_every_cell (s : UnpackedSchematic) (p : GeometryPlacer)
    (r : Placed) (m : InstancedMesh) (x y z : Z) :
  snd (create s p) = Return r ->
  In m (emitted r) ->
  inBounds s x y z ->
  array_get (schematic s) (scanIndexAt s x y z) = Some (meshType m) ->
  exists w, In w (matrixWrites r)
            /\ writeType w = meshType m /\ writeMatrix w = updateMatrix x y z.
Proof.
  intros Hr Hm [Hx [Hy Hz]] Hcell.
  destruct (create_Return_inv s p r Hr) as (typeToUV & Hem & Hwr).
  rewrite Hem in Hm. rewrite Hwr, scan_fold.
  destruct (buildMeshes_emitted_stored s typeToUV _ _ _ m Hm) as [[]|Hst].
  pose proof (scanOrder_lookup s x y z Hx Hy Hz) as Hk.
  apply (scanCells_complete s _ (scanOrder s) _ _ x y z (meshType m) Hk); [|done].
  cbn [index]. rewrite Z.add_0_l.
  assert (0 <= scanIndexAt s x y z).
  { unfold scanIndexAt.
    assert (0 <= sizeY s * sizeZ s) by (apply Z.mul_nonneg_nonneg; lia).
    assert (0 <= x * (sizeY s * sizeZ s)) by (apply Z.mul_nonneg_nonneg; lia).
    assert (0 <= y * sizeZ s) by (apply Z.mul_nonneg_nonneg; lia).
    lia. }
  by rewrite Z2Nat.id.
Qed.

(** X19: slots fill in scan order.  Among the matrices a returning
    [create] writes, those of one block type go to the slots 0, 1, 2, ...
    in the order in which they are written. *)
Theorem create_slots_in_order (s : UnpackedSchematic) (p : GeometryPlacer)
    (r : Placed) (t : Z) :
  snd (create s p) = Return r ->
  map writeSlot (writesOf t (matrixWrites r))
  = map Z.of_nat (seq 0 (length (writesOf t (matrixWrites r)))).
Proof.
  intros Hr. destruct (create_Return_inv s p r Hr) as (typeToUV & _ & ->).
  destruct (scan_slots_in_order s
              (fst (buildMeshes s typeToUV (JsMap.keys (blockCounts s)) JsMap.empty [])) t)
    as [Hn Hslots].
  assert (Hlen : length (writesOf t (writes (scan s
                   (fst (buildMeshes s typeToUV (JsMap.keys (blockCounts s))
                           JsMap.empty [])))))
                 = Z.to_nat (nextSlot t (scan s
                   (fst (buildMeshes s typeToUV (JsMap.keys (blockCounts s))
                           JsMap.empty []))))).
  { rewrite <- (length_map writeSlot), Hslots, range_length. done. }
  rewrite Hlen. exact Hslots.
Qed.

(** X20: a batch is never over-filled.  On a grid built through the
    public methods, the number of matrices a returning [create] writes for
    a non-zero block type is at most the number of cells holding the type,
    which is at most the instance count of the batch emitted for it. *)
Theorem create_writes_fit_batch (s : UnpackedSchematic) (p : GeometryPlacer)
    (r : Placed) (m : InstancedMesh) :
  reachable s ->
  snd (create s p) = Return r ->
  In m (emitted r) ->
  meshType m <> 0 ->
  exists c,
    meshCount m = Num c
    /\ Z.of_nat (length (writesOf (meshType m) (matrixWrites r)))
       <= cellsHolding (meshType m) (schematic s)
    /\ cellsHolding (meshType m) (schematic s) <= c.
Proof.
  intros Hreach Hr Hm Ht.
  destruct (create_Return_inv s p r Hr) as (typeToUV & Hem & Hwr).
  rewrite Hem in Hm. rewrite Hwr.
  set (im := fst (buildMeshes s typeToUV (JsMap.keys (blockCounts s)) JsMap.empty [])) in *.
  destruct (buildMeshes_emitted s typeToUV _ _ _ m Hm) as [[]|[Huv Hcount]].
  destruct (scan_slots_in_order s im (meshType m)) as [Hn Hslots].
  destruct (scan_slotsFollowCells s im) as (_ & Hfollow & _).
  specialize (Hfollow (meshType m)).
  pose proof (cellsHolding_take_le (meshType m) (schematic s)
                (Z.to_nat (index (scan s im)))) as Htake.
  assert (Hlen : Z.of_nat (length (writesOf (meshType m) (writes (scan s im))))
                 = nextSlot (meshType m) (scan s im)).
  { rewrite <- (length_map writeSlot), Hslots, range_length. lia. }
  pose proof (reachable_countCoversCells s (meshType m) Hreach Ht) as Hinv.
  unfold countCoversCells in Hinv. unfold countOf in Hcount.
  destruct (JsMap.get (meshType m) (blockCounts s)) as [[c|]|] eqn:Hget.
  - exists c. split; [done|]. lia.
  - done.
  - exfalso.
    destruct (buildMeshes_order s typeToUV (JsMap.keys (blockCounts s)) JsMap.empty [])
      as (added & Heq & Hsub).
    assert (Hin : In (meshType m) (JsMap.keys (blockCounts s))).
    { apply list_elem_of_In. eapply elem_of_sublist; [|exact Hsub].
      simpl in Heq. rewrite <- Heq. apply list_elem_of_In, in_map. exact Hm. }
    apply has_keys, has_get in Hin. rewrite Hget in Hin. by destruct Hin.
Qed.

(* ===================================================================== *)
(** ** The statements above on a grid with two block types *)

Lemma reachable_runOps ops : forall g, reachable g -> reachable (fst (runOps ops g)).
Proof.
  induction ops as [|o ops IH]; intros g Hg; simpl; [done|].
  assert (Hstep : reachable (fst (applyOp o g))) by (destruct o; by constructor).
  destruct (applyOp o g) as [g1 [[]|e]]; simpl in *; [by apply IH | done].
Qed.

Lemma create_gridMixed : snd (create gridMixed newPlacer) = Return placedMixed.
Proof. vm_compute. reflexivity. Qed.

Lemma create_emitted_batches_witness :
  sublist (map meshType (emitted placedMixed)) (JsMap.keys (blockCounts gridMixed))
  /\ forall m, In m (emitted placedMixed) ->
       meshCount m = countOf gridMixed (meshType m)
       /\ uvCache (fst (create gridMixed newPlacer)) !! meshType m = Some (meshUV m).
Proof.
  apply (create_emitted_batches gridMixed newPlacer placedMixed).
  vm_compute. reflexivity.
Defined.

Lemma create_writes_show_cells_witness :
  exists x y z,
    inBounds gridMixed x y z
    /\ writeMatrix writeMixed = updateMatrix x y z
    /\ array_get (schematic gridMixed) (scanIndexAt gridMixed x y z)
       = Some (writeType writeMixed)
    /\ exists m, In m (emitted placedMixed) /\ meshType m = writeType writeMixed.
Proof.
  apply (create_writes_show_cells gridMixed newPlacer placedMixed writeMixed).
  - vm_compute. reflexivity.
  - right. right. left. reflexivity.
Defined.

Lemma create_shows_every_cell_witness :
  exists w, In w (matrixWrites placedMixed)
            /\ writeType w = meshType meshMixed
            /\ writeMatrix w = updateMatrix 1 0 0.
Proof.
  apply (create_shows_every_cell gridMixed newPlacer placedMixed meshMixed 1 0 0).
  - vm_compute. reflexivity.
  - left. reflexivity.
  - unfold inBounds. vm_compute. repeat split; discriminate.
  - vm_compute. reflexivity.
Defined.

Lemma create_slots_in_order_witness :
  map writeSlot (writesOf 5 (matrixWrites placedMixed))
  = map Z.of_nat (seq 0 (length (writesOf 5 (matrixWrites placedMixed)))).
Proof.
  apply (create_slots_in_order gridMixed newPlacer placedMixed 5).
  vm_compute. reflexivity.
Defined.

Lemma create_writes_fit_batch_witness :
  exists c,
    meshCount meshMixed = Num c
    /\ Z.of_nat (length (writesOf (meshType meshMixed) (matrixWrites placedMixed)))
       <= cellsHolding (meshType meshMixed) (schematic gridMixed)
    /\ cellsHolding (meshType meshMixed) (schematic gridMixed) <= c.
Proof.
  apply (create_writes_fit_batch gridMixed newPlacer placedMixed meshMixed).
  - apply reachable_runOps. repeat constructor.
  - vm_compute. reflexivity.
  - left. reflexivity.
  - discriminate.
Defined.

(* ===================================================================== *)
(** ** The order of the three loops, and grids without volume *)

(** X21: the three nested loops visit every cell of the grid exactly once,
    x-major: the k-th cell they reach (from 0) is [(x, y, z)] if and only
    if [(x, y, z)] lies inside the grid and
    [k = x*sizeY*sizeZ + y*sizeZ + z]. *)
Theorem scanOrder_characterised (s : UnpackedSchematic) (k : nat) (x y z : Z) :
  scanOrder s !! k = Some (x, y, z)
  <-> inBounds s x y z /\ Z.of_nat k = scanIndexAt s x y z.
Proof.
  split; [apply scanOrder_lookup_inv|].
  intros [[Hx [Hy Hz]] Hk].
  rewrite <- (Nat2Z.id k), Hk. by apply scanOrder_lookup.
Qed.



